(** * SocketCAN demo programs: raw echo, broadcast-manager echo, cyclic task

    A shallow embedding of the three programs of the repository
    (socketcan-raw-demo.c, socketcan-bcm-demo.c, socketcan-cyclic-demo.c)
    and the properties of their frame codec and session protocols.

    Integers of the C code are [Z] with the wrap-around written where the
    code relies on it; the payload array [data[8]] is a [list Z] accessed
    through [load] and [store], which record the index they touch and fail
    outside the array; system calls take their result from a script of
    replies and are recorded, with that result, in the trace of the run. *)

From Stdlib Require Import ZArith List String Ascii Bool Lia.
Import ListNotations.

Local Open Scope string_scope.
Local Open Scope list_scope.
Local Open Scope Z_scope.

Set Implicit Arguments.

(** [a[i] = v] on an array held as a list; the caller checks the index. *)
Fixpoint update {A} (a : list A) (i : nat) (v : A) : list A :=
  match a, i with
  | [], _ => []
  | _ :: tl, O => v :: tl
  | x :: tl, S j => x :: update tl j v
  end.

(** ** Accesses to the payload array *)

(** A computation over [data[]]: the indices it touched, in order, and its
    value, [None] once an access fell outside the array (undefined
    behaviour in C). *)
Module Mem.

Record t (A : Type) : Type := mk { touched : list nat; value : option A }.

Definition ret {A} (a : A) : t A := mk [] (Some a).

Definition bind {A B} (m : t A) (f : A -> t B) : t B :=
  match value m with
  | None => mk (touched m) None
  | Some a => let r := f a in mk (touched m ++ touched r) (value r)
  end.

(** [data[i]] as an rvalue. *)
Definition load (data : list Z) (i : nat) : t Z :=
  mk [i] (nth_error data i).

(** [data[i] = v]. *)
Definition store (data : list Z) (i : nat) (v : Z) : t (list Z) :=
  mk [i] (if (i <? List.length data)%nat then Some (update data i v) else None).

End Mem.

Declare Scope mem_scope.
Delimit Scope mem_scope with mem.
Notation "x <- m ;; k" := (Mem.bind m (fun x => k))
  (at level 61, m at next level, right associativity) : mem_scope.

(** ** linux/can.h: the classic CAN frame *)

Record can_frame : Type := mk_frame {
  can_id : Z;        (* canid_t: 32 bits, identifier and EFF/RTR/ERR flags *)
  len : Z;           (* __u8: payload length in bytes *)
  data : list Z      (* __u8 data[8] *)
}.
(* The padding and the [len8_dlc] byte are never read or written by the
   programs and are left out. *)

Definition CAN_MAX_DLEN : nat := 8.

Definition is_byte (b : Z) : Prop := 0 <= b < 256.

(** What the types of [struct can_frame] guarantee of a value. *)
Record wf_frame (f : can_frame) : Prop := {
  wf_id : 0 <= can_id f < 2 ^ 32;
  wf_len : 0 <= len f < 256;
  wf_size : List.length (data f) = CAN_MAX_DLEN;
  wf_bytes : Forall is_byte (data f)
}.

(** ** printf conversions used by the programs *)

Definition digit_char (d : Z) : ascii :=
  match d with
  | 0 => "0" | 1 => "1" | 2 => "2" | 3 => "3" | 4 => "4"
  | 5 => "5" | 6 => "6" | 7 => "7" | 8 => "8" | 9 => "9"
  | 10 => "A" | 11 => "B" | 12 => "C" | 13 => "D" | 14 => "E"
  | _ => "F"
  end%char.

(** Digits of [n] in [base], most significant first; 32 rounds cover every
    32-bit value. *)
Fixpoint digits (base : Z) (fuel : nat) (n : Z) (acc : list Z) : list Z :=
  match fuel with
  | O => acc
  | S k =>
      let acc' := (n mod base) :: acc in
      if n / base =? 0 then acc' else digits base k (n / base) acc'
  end.

Definition zero_pad (width : nat) (ds : list Z) : list Z :=
  repeat 0 (width - List.length ds) ++ ds.

(** ["%0<width>X"]: upper-case hexadecimal, zero-padded to [width]. *)
Definition fmt_X (width : nat) (n : Z) : string :=
  string_of_list_ascii (map digit_char (zero_pad width (digits 16 32 n []))).

(** ["%u"]. *)
Definition fmt_u (n : Z) : string :=
  string_of_list_ascii (map digit_char (digits 10 32 n [])).

(** ** print_can_frame (raw and broadcast-manager demo, same text) *)

(** The loop [for (i = 0; i < len; i++) printf(" %02X", data[i]);] with [n]
    rounds left. *)
Fixpoint print_bytes (data : list Z) (i : nat) (n : nat) : Mem.t string :=
  match n with
  | O => Mem.ret ""
  | S n' =>
      (b <- Mem.load data i ;;
       rest <- print_bytes data (S i) n' ;;
       Mem.ret (" " ++ fmt_X 2 b ++ rest)%string)%mem
  end.

(** The text written to standard output by [print_can_frame]. *)
Definition print_can_frame (frame : can_frame) : Mem.t string :=
  let head :=
    (fmt_X 3 (can_id frame) ++ "  [" ++ fmt_u (len frame) ++ "] ")%string in
  (bytes <- print_bytes (data frame) 0 (Z.to_nat (len frame)) ;;
   Mem.ret (head ++ bytes)%string)%mem.

(** ** The increment loop of the two echo programs

    The loop is written in line in both [main] functions; it is named here
    after the operation it implements. *)

(** [for (i = 0; i < frame.len; i++) frame.data[i] += 1;] with [n] rounds
    left; the bytes are [unsigned char], so the sum wraps at 256. *)
Fixpoint increment_bytes (data : list Z) (i : nat) (n : nat)
  : Mem.t (list Z) :=
  match n with
  | O => Mem.ret data
  | S n' =>
      (b <- Mem.load data i ;;
       data' <- Mem.store data i ((b + 1) mod 256) ;;
       increment_bytes data' (S i) n')%mem
  end.

Definition increment_payload (frame : can_frame) : Mem.t can_frame :=
  (data' <- increment_bytes (data frame) 0 (Z.to_nat (len frame)) ;;
   Mem.ret (mk_frame (can_id frame) (len frame) data'))%mem.

(** [frame.can_id = MSGID;] followed by the increment loop. *)
Definition transform (msgid : Z) (frame : can_frame) : Mem.t can_frame :=
  increment_payload (mk_frame msgid (len frame) (data frame)).

(** ** linux/can/bcm.h: the broadcast-manager command header *)

Module bcm.

Record bcm_timeval : Type := mk_timeval { tv_sec : Z; tv_usec : Z }.

Record bcm_msg_head : Type := mk_head {
  opcode : Z;
  flags : Z;
  count : Z;
  ival1 : bcm_timeval;
  ival2 : bcm_timeval;
  can_id : Z;
  nframes : Z
}.

(* Values of the kernel header. *)
Definition TX_SETUP : Z := 1.
Definition TX_SEND : Z := 4.
Definition RX_SETUP : Z := 5.
Definition SETTIMER : Z := 0x0001.
Definition STARTTIMER : Z := 0x0002.

(** The header after [memset(&msg, 0, sizeof(msg))]. *)
Definition zero_head : bcm_msg_head :=
  mk_head 0 0 0 (mk_timeval 0 0) (mk_timeval 0 0) 0 0.

End bcm.

(** A frame after [memset]. *)
Definition zero_frame : can_frame := mk_frame 0 0 (repeat 0 CAN_MAX_DLEN).

(** ** The operating system as the programs see it *)

Definition EINTR : Z := 4.
Definition EXIT_SUCCESS : Z := 0.
Definition EXIT_FAILURE : Z := 1.
Definition IFNAMSIZ : nat := 16.

(** What a system call returned: its value, or -1 with [errno]. *)
Inductive sysret (A : Type) : Type :=
| Done (a : A)
| Failed (errno : Z).
Arguments Failed {A} errno.

(** One reply of the environment. [signalled]: SIGINT or SIGTERM was
    delivered, and its handler ran, after the previous call returned and
    before this one did. *)
Record reply (A : Type) : Type := mk_reply {
  signalled : bool;
  ret : sysret A
}.

Inductive sock_kind : Type :=
| CAN_RAW      (* socket(PF_CAN, SOCK_RAW, CAN_RAW) *)
| CAN_BCM.     (* socket(PF_CAN, SOCK_DGRAM, CAN_BCM) *)

Inductive signal : Type := SIGINT | SIGTERM.

Definition signal_eqb (a b : signal) : bool :=
  match a, b with
  | SIGINT, SIGINT | SIGTERM, SIGTERM => true
  | _, _ => false
  end.

(** A signal set: the listed signals, or every signal but the listed. *)
Inductive sigset : Type :=
| Only (l : list signal)
| AllBut (l : list signal).

Definition sigemptyset : sigset := Only [].
Definition sigfillset : sigset := AllBut [].

Definition without (s : signal) (l : list signal) : list signal :=
  filter (fun x => negb (signal_eqb s x)) l.

Definition sigaddset (m : sigset) (s : signal) : sigset :=
  match m with
  | Only l => Only (without s l ++ [s])
  | AllBut l => AllBut (without s l)
  end.

Definition sigdelset (m : sigset) (s : signal) : sigset :=
  match m with
  | Only l => Only (without s l)
  | AllBut l => AllBut (without s l ++ [s])
  end.

(** What a run does, in order. Calls carry their result. [P] is what the
    program reads from and writes to its socket. *)
Inductive event (P : Type) : Type :=
| Esocket (k : sock_kind) (r : sysret Z)
| Eioctl (sfd : Z) (ifr_name : string) (r : sysret Z)   (* SIOCGIFINDEX *)
| Ebind (sfd ifindex : Z) (r : sysret unit)
| Econnect (sfd ifindex : Z) (r : sysret unit)
| Eread (sfd : Z) (r : sysret P)
| Ewrite (sfd : Z) (buf : P) (r : sysret unit)
| Estdout (s : string)
| Eerror (op : string) (errnum : Z)   (* error(3): "prog: op: reason" *)
| Estderr (s : string)                (* a line of the C library itself *)
| Esigprocmask_block (m : sigset)
| Esigsuspend (m : sigset)
| Eclose (sfd : Z) (r : sysret unit).
Arguments Esocket {P} k r.
Arguments Eioctl {P} sfd ifr_name r.
Arguments Ebind {P} sfd ifindex r.
Arguments Econnect {P} sfd ifindex r.
Arguments Eread {P} sfd r.
Arguments Ewrite {P} sfd buf r.
Arguments Estdout {P} s.
Arguments Eerror {P} op errnum.
Arguments Estderr {P} s.
Arguments Esigprocmask_block {P} m.
Arguments Esigsuspend {P} m.
Arguments Eclose {P} sfd r.

(** How a run ends. *)
Inductive ending : Type :=
| Exit (status : Z)   (* exit(3) or return from main *)
| Hang                (* blocked for ever in a call *)
| Fault.              (* an access outside [data[8]] *)

(** A piece of program: from the value of the flag [run] (the one global
    variable) to the events it causes and either a value with the new
    flag, or the end of the process. *)
Definition Proc (P A : Type) : Type :=
  bool -> list (event P) * (A * bool + ending).

Section PROC.

Variable P : Type.

Definition pret {A} (a : A) : Proc P A := fun run => ([], inl (a, run)).

Definition pbind {A B} (m : Proc P A) (f : A -> Proc P B) : Proc P B :=
  fun run =>
    match m run with
    | (t, inl (a, run')) => let r := f a run' in (t ++ fst r, snd r)
    | (t, inr e) => (t, inr e)
    end.

Definition emit (e : event P) : Proc P unit := fun run => ([e], inl (tt, run)).

Definition halt {A} (e : ending) : Proc P A := fun _ => ([], inr e).

(** The flag as the loop condition reads it. *)
Definition get_run : Proc P bool := fun run => ([], inl (run, run)).

(** [on_signal] of the two echo programs: [run = 0]. *)
Definition deliver (s : bool) : Proc P unit :=
  fun run => ([], inl (tt, run && negb s)).

(** A call whose result is [r], with no signal on the way. *)
Definition call {A} (ev : sysret A -> event P) (r : sysret A)
  : Proc P (sysret A) :=
  fun run => ([ev r], inl (r, run)).

(** A call answered by [r]. *)
Definition sys {A} (ev : sysret A -> event P) (r : reply A)
  : Proc P (sysret A) :=
  pbind (deliver (signalled r)) (fun _ => call ev (ret r)).

(** The result of a payload computation, or the fault. *)
Definition mem {A} (m : Mem.t A) : Proc P A :=
  match Mem.value m with
  | Some a => pret a
  | None => halt Fault
  end.

End PROC.

Arguments pret {P A} a.
Arguments pbind {P A B} m f.
Arguments emit {P} e.
Arguments halt {P A} e.
Arguments get_run {P}.
Arguments deliver {P} s.
Arguments call {P A} ev r.
Arguments sys {P A} ev r.
Arguments mem {P A} m.

Declare Scope proc_scope.
Delimit Scope proc_scope with proc.
Notation "x <- m ;; k" := (pbind m (fun x => k))
  (at level 61, m at next level, right associativity) : proc_scope.
Notation "m ;;; k" := (pbind m (fun _ => k))
  (at level 61, right associativity) : proc_scope.

(** The line feed of ["\n"] and of [puts]. *)
Definition nl : string := String (ascii_of_nat 10) EmptyString.

(** [error(status, errnum, op)] of glibc: the diagnostic, then [exit] when
    [status] is not zero. *)
Definition error {P} (status errnum : Z) (op : string) : Proc P unit :=
  (emit (Eerror op errnum) ;;;
   if status =? 0 then pret tt else halt (Exit status))%proc.

(** [if (-1 == rc) { error(EXIT_FAILURE, errno, op); }] *)
Definition fatal_if_failed {P A} (rc : sysret A) (op : string) : Proc P unit :=
  match rc with
  | Failed e => error EXIT_FAILURE e op
  | Done _ => pret tt
  end.

(** The replies a run of an echo program meets. *)
Record world (P : Type) : Type := mk_world {
  w_socket : reply Z;            (* socket(): the descriptor *)
  w_ioctl : reply Z;             (* ioctl(SIOCGIFINDEX): the index *)
  w_addr : reply unit;           (* bind() or connect() *)
  w_reads : list (reply P);      (* read(), call after call *)
  w_writes : list (reply unit);  (* write(), call after call *)
  w_close : sysret unit          (* close(), signals blocked *)
}.

(** ** Code common to the three programs

    [init_socket] and [cleanup] are repeated in each file; the copies
    differ in the kind of socket and in [bind] against [connect] only. *)

Definition init_socket {P} (k : sock_kind) (iface : string)
    (r_socket r_ioctl : reply Z) (r_addr : reply unit) : Proc P Z :=
  (rs <- sys (Esocket k) r_socket ;;
   fatal_if_failed rs "socket" ;;;
   let sfd := match rs with Done fd => fd | Failed _ => -1 end in
   ri <- sys (Eioctl sfd (substring 0 IFNAMSIZ iface)) r_ioctl ;;
   fatal_if_failed ri "ioctl" ;;;
   let ifindex := match ri with Done i => i | Failed _ => 0 end in
   ra <- sys (match k with
              | CAN_RAW => Ebind sfd ifindex
              | CAN_BCM => Econnect sfd ifindex
              end) r_addr ;;
   fatal_if_failed ra "bind" ;;;
   pret sfd)%proc.

Definition cleanup {P} (sfd : Z) (r_close : sysret unit) : Proc P unit :=
  (let mask := sigaddset (sigaddset sigemptyset SIGINT) SIGTERM in
   emit (Esigprocmask_block mask) ;;;
   rc <- call (Eclose sfd) r_close ;;
   fatal_if_failed rc "close")%proc.

(** The run of [main]: [run] starts at 1; the trace and the ending. *)
Definition exec {P} (main : Proc P Z) : list (event P) * ending :=
  match main true with
  | (t, inl (status, _)) => (t, Exit status)
  | (t, inr e) => (t, e)
  end.

(** ** socketcan-raw-demo.c *)

Module RawDemo.

Definition MSGID : Z := 0x0CC.

(** [while (run) { ... }] *)
Fixpoint loop (sfd : Z) (reads : list (reply can_frame))
    (writes : list (reply unit)) {struct reads} : Proc can_frame unit :=
  (run <- get_run ;;
   if run : bool then
     match reads with
     | [] => halt Hang
     | r :: reads' =>
         n <- sys (Eread sfd) r ;;
         match n with
         | Failed e =>
             if e =? EINTR then loop sfd reads' writes   (* continue *)
             else error 0 e "read"                       (* break *)
         | Done frame =>
             emit (Estdout "RX:  ") ;;;
             rx <- mem (print_can_frame frame) ;;
             emit (Estdout rx) ;;;
             emit (Estdout nl) ;;;
             frame <- mem (transform MSGID frame) ;;
             match writes with
             | [] => halt Hang
             | w :: writes' =>
                 n <- sys (Ewrite sfd frame) w ;;
                 match n with
                 | Failed e =>
                     if e =? EINTR then loop sfd reads' writes' (* continue *)
                     else error 0 e "write"                     (* break *)
                 | Done _ =>
                     emit (Estdout "TX:  ") ;;;
                     tx <- mem (print_can_frame frame) ;;
                     emit (Estdout tx) ;;;
                     emit (Estdout nl) ;;;
                     loop sfd reads' writes'
                 end
             end
         end
     end
   else pret tt)%proc.

Definition main (iface : string) (w : world can_frame) : Proc can_frame Z :=
  (sfd <- init_socket CAN_RAW iface (w_socket w) (w_ioctl w) (w_addr w) ;;
   loop sfd (w_reads w) (w_writes w) ;;;
   cleanup sfd (w_close w) ;;;
   emit (Estdout ("Goodbye!" ++ nl)%string) ;;;
   pret EXIT_SUCCESS)%proc.

End RawDemo.

(** ** socketcan-bcm-demo.c *)

Module BcmDemo.

Definition MSGID : Z := 0x0BC.

(** [struct can_msg { struct bcm_msg_head msg_head; struct can_frame
    frames[1]; }]: the array of one frame is held as that frame. *)
Record can_msg : Type := mk_msg {
  msg_head : bcm.bcm_msg_head;
  frames : can_frame
}.

Definition set_opcode (v : Z) (h : bcm.bcm_msg_head) : bcm.bcm_msg_head :=
  bcm.mk_head v (bcm.flags h) (bcm.count h) (bcm.ival1 h) (bcm.ival2 h)
    (bcm.can_id h) (bcm.nframes h).

Definition set_can_id (v : Z) (h : bcm.bcm_msg_head) : bcm.bcm_msg_head :=
  bcm.mk_head (bcm.opcode h) (bcm.flags h) (bcm.count h) (bcm.ival1 h)
    (bcm.ival2 h) v (bcm.nframes h).

Definition set_nframes (v : Z) (h : bcm.bcm_msg_head) : bcm.bcm_msg_head :=
  bcm.mk_head (bcm.opcode h) (bcm.flags h) (bcm.count h) (bcm.ival1 h)
    (bcm.ival2 h) (bcm.can_id h) v.

(** The message of the subscription: [memset], then the two fields. *)
Definition rx_setup_msg : can_msg :=
  mk_msg (set_can_id 0x123 (set_opcode bcm.RX_SETUP bcm.zero_head))
         zero_frame.

(** [while (run) { ... }]. A read that succeeds replaces the whole of
    [msg], so the buffer is not carried from one round to the next. *)
Fixpoint loop (sfd : Z) (reads : list (reply can_msg))
    (writes : list (reply unit)) {struct reads} : Proc can_msg unit :=
  (run <- get_run ;;
   if run : bool then
     match reads with
     | [] => halt Hang
     | r :: reads' =>
         n <- sys (Eread sfd) r ;;
         match n with
         | Failed e =>
             if e =? EINTR then loop sfd reads' writes   (* continue *)
             else error 0 e "read"                       (* break *)
         | Done msg =>
             let frame := frames msg in
             emit (Estdout "RX:  ") ;;;
             rx <- mem (print_can_frame frame) ;;
             emit (Estdout rx) ;;;
             emit (Estdout nl) ;;;
             frame <- mem (transform MSGID frame) ;;
             let head :=
               set_nframes 1
                 (set_can_id 0 (set_opcode bcm.TX_SEND (msg_head msg))) in
             let msg := mk_msg head frame in
             match writes with
             | [] => halt Hang
             | w :: writes' =>
                 n <- sys (Ewrite sfd msg) w ;;
                 match n with
                 | Failed e =>
                     if e =? EINTR then loop sfd reads' writes' (* continue *)
                     else error 0 e "write"                     (* break *)
                 | Done _ =>
                     emit (Estdout "TX:  ") ;;;
                     tx <- mem (print_can_frame frame) ;;
                     emit (Estdout tx) ;;;
                     emit (Estdout nl) ;;;
                     loop sfd reads' writes'
                 end
             end
         end
     end
   else pret tt)%proc.

Definition main (iface : string) (w : world can_msg) : Proc can_msg Z :=
  (sfd <- init_socket CAN_BCM iface (w_socket w) (w_ioctl w) (w_addr w) ;;
   match w_writes w with
   | [] => halt Hang
   | w0 :: writes =>
       n <- sys (Ewrite sfd rx_setup_msg) w0 ;;
       fatal_if_failed n "write" ;;;
       loop sfd (w_reads w) writes ;;;
       cleanup sfd (w_close w) ;;;
       emit (Estdout ("Goodbye!" ++ nl)%string) ;;;
       pret EXIT_SUCCESS
   end)%proc.

End BcmDemo.

(** ** socketcan-cyclic-demo.c *)

Module CyclicDemo.

Definition MSGID : Z := 0x0C0.
Definition MSGLEN : Z := 3.
Definition NFRAMES : Z := 4.

(** [struct can_msg { struct bcm_msg_head msg_head; struct can_frame
    frames[NFRAMES]; }] *)
Record can_msg : Type := mk_msg {
  msg_head : bcm.bcm_msg_head;
  frames : list can_frame
}.

(** [memset(a, c, n)] on an array of bytes, for [n] within the array. *)
Definition memset (a : list Z) (c : Z) (n : nat) : list Z :=
  repeat (c mod 256) n ++ skipn n a.

(** [for (i = 0; i < NFRAMES; i++) { ... }] with [n] rounds left. *)
Fixpoint set_frames (frames : list can_frame) (i : nat) (n : nat)
  : list can_frame :=
  match n with
  | O => frames
  | S n' =>
      let frame := nth i frames zero_frame in
      let frame :=
        mk_frame (MSGID + Z.of_nat i) MSGLEN
                 (memset (data frame) (Z.of_nat i) (Z.to_nat MSGLEN)) in
      set_frames (update frames i frame) (S i) n'
  end.

(** The registration as it is written to the socket. *)
Definition tx_setup_msg : can_msg :=
  let head :=
    bcm.mk_head bcm.TX_SETUP (Z.lor bcm.SETTIMER bcm.STARTTIMER) 0
      (bcm.mk_timeval 0 0) (bcm.mk_timeval 1 200000) 0 NFRAMES in
  mk_msg head
    (set_frames (repeat zero_frame (Z.to_nat NFRAMES)) 0 (Z.to_nat NFRAMES)).

Definition dquote : string := String (ascii_of_nat 34) EmptyString.

Definition registered_text (iface : string) : string :=
  ("Cyclic messages registed with SocketCAN!" ++ nl ++
   "Use a tool such as " ++ dquote ++ "candump " ++ iface ++ dquote ++
   " to view the messages." ++ nl ++
   "These messages will continue to transmit so long as the socket" ++ nl ++
   "used to communicate with SocketCAN remains open. In other words," ++ nl ++
   "close this program with SIGINT or SIGTERM in order to gracefully" ++ nl ++
   "stop transmitting." ++ nl)%string.

(** The replies a run meets. The handler of this program does nothing, so
    only the signal that ends [sigsuspend] matters: [w_wakeup] tells
    whether SIGINT or SIGTERM ever arrives. *)
Record world : Type := mk_world {
  w_socket : reply Z;
  w_ioctl : reply Z;
  w_connect : reply unit;
  w_write : reply unit;
  w_wakeup : bool;
  w_close : sysret unit
}.

Definition main (iface : string) (w : world) : Proc can_msg Z :=
  (sfd <- init_socket CAN_BCM iface (w_socket w) (w_ioctl w) (w_connect w) ;;
   n <- sys (Ewrite sfd tx_setup_msg) (w_write w) ;;
   fatal_if_failed n "write" ;;;
   emit (Estdout (registered_text iface)) ;;;
   let mask := sigdelset (sigdelset sigfillset SIGINT) SIGTERM in
   (if w_wakeup w then emit (Esigsuspend mask) else halt Hang) ;;;
   cleanup sfd (w_close w) ;;;
   emit (Estdout ("Goodbye!" ++ nl)%string) ;;;
   pret EXIT_SUCCESS)%proc.

End CyclicDemo.

(** ** Vocabulary of the properties *)

(** *** The text of a frame *)

Definition is_upper_hex (c : ascii) : bool :=
  let n := nat_of_ascii c in
  ((48 <=? n) && (n <=? 57) || (65 <=? n) && (n <=? 70))%nat.

(** The number of upper-case hexadecimal digits [s] starts with, and what
    follows them. *)
Fixpoint skip_hex (s : string) : nat * string :=
  match s with
  | String c s' =>
      if is_upper_hex c then let (k, r) := skip_hex s' in (S k, r)
      else (O, s)
  | EmptyString => (O, s)
  end.

(** [s] without its prefix [p]. *)
Fixpoint strip (p s : string) : option string :=
  match p, s with
  | EmptyString, _ => Some s
  | String a p', String b s' => if Ascii.eqb a b then strip p' s' else None
  | String _ _, EmptyString => None
  end.

(** [s] is [n] times a space and two upper-case hexadecimal digits, and
    nothing more. *)
Fixpoint byte_fields (n : nat) (s : string) : bool :=
  match n, s with
  | O, EmptyString => true
  | S n', String sp (String a (String b r)) =>
      Ascii.eqb sp " " && is_upper_hex a && is_upper_hex b && byte_fields n' r
  | _, _ => false
  end.

(** The shape of a rendered frame of length [length]: three or more
    upper-case hexadecimal digits, two spaces, the decimal length within
    brackets, [sep], then [length] byte fields. *)
Definition frame_text (sep : string) (length : Z) (s : string) : bool :=
  let (k, r) := skip_hex s in
  (3 <=? k)%nat &&
  match strip ("  [" ++ fmt_u length ++ "]" ++ sep)%string r with
  | Some r' => byte_fields (Z.to_nat length) r'
  | None => false
  end.

(** The pattern in the words of the specification: the byte fields come
    right after the bracket. *)
Definition spec_frame_text : Z -> string -> bool := frame_text "".

(** The pattern of the format strings ["%03X  [%u] "] and [" %02X"]. *)
Definition code_frame_text : Z -> string -> bool := frame_text " ".

(** The byte fields of the bytes [l]. *)
Fixpoint bytes_text (l : list Z) : string :=
  match l with
  | [] => EmptyString
  | b :: tl => (" " ++ fmt_X 2 b ++ bytes_text tl)%string
  end.

(** *** The payload after the increment loop *)

(** [f] applied to the [n] elements of [l] from index [i] on. *)
Fixpoint map_range (f : Z -> Z) (i n : nat) (l : list Z) : list Z :=
  match l with
  | [] => []
  | x :: tl =>
      match i, n with
      | S i', _ => x :: map_range f i' n tl
      | O, S n' => f x :: map_range f O n' tl
      | O, O => l
      end
  end.

(** [k] applications of [op], stopping at the first fault. *)
Fixpoint repeated {A} (k : nat) (op : A -> Mem.t A) (a : A) : Mem.t A :=
  match k with
  | O => Mem.ret a
  | S k' => (a' <- op a ;; repeated k' op a')%mem
  end.

(** *** One round of the echo loops

    The loops of the raw and of the broadcast-manager demo are the same
    code up to what travels over the socket. [round] is the body they
    share, written flat: the events of one round from a true [run], the
    flag after it, and where control goes next. *)

Inductive next : Type :=
| Again (writes : list (reply unit))   (* back to the loop condition *)
| Leave                                (* break *)
| Stop (e : ending).

(** The events [t], then the run [r]. *)
Definition after {P A} (t : list (event P))
    (r : list (event P) * (A * bool + ending))
  : list (event P) * (A * bool + ending) :=
  (t ++ fst r, snd r).

Section ECHO.

Variable P : Type.
Variable frame_of : P -> can_frame.      (* the frame within what was read *)
Variable answer : P -> can_frame -> P.   (* what is written back *)
Variable msgid : Z.
Variable sfd : Z.

Definition round (r : reply P) (writes : list (reply unit))
  : list (event P) * bool * next :=
  let run1 := negb (signalled r) in
  match ret r with
  | Failed e =>
      if e =? EINTR then ([Eread sfd (Failed e)], run1, Again writes)
      else ([Eread sfd (Failed e); Eerror "read" e], run1, Leave)
  | Done p =>
      let t1 := [Eread sfd (Done p); Estdout "RX:  "] in
      match Mem.value (print_can_frame (frame_of p)) with
      | None => (t1, run1, Stop Fault)
      | Some rx =>
          let t2 := t1 ++ [Estdout rx; Estdout nl] in
          match Mem.value (transform msgid (frame_of p)) with
          | None => (t2, run1, Stop Fault)
          | Some frame =>
              match writes with
              | [] => (t2, run1, Stop Hang)
              | w :: writes' =>
                  let run2 := run1 && negb (signalled w) in
                  let t3 := t2 ++ [Ewrite sfd (answer p frame) (ret w)] in
                  match ret w with
                  | Failed e =>
                      if e =? EINTR then (t3, run2, Again writes')
                      else (t3 ++ [Eerror "write" e], run2, Leave)
                  | Done _ =>
                      match Mem.value (print_can_frame frame) with
                      | None => (t3 ++ [Estdout "TX:  "], run2, Stop Fault)
                      | Some tx =>
                          (t3 ++ [Estdout "TX:  "; Estdout tx; Estdout nl],
                           run2, Again writes')
                      end
                  end
              end
          end
      end
  end.

Fixpoint rounds (reads : list (reply P)) (writes : list (reply unit))
    (run : bool) : list (event P) * (unit * bool + ending) :=
  if run then
    match reads with
    | [] => ([], inr Hang)
    | r :: reads' =>
        match round r writes with
        | (t, run', Again writes') => after t (rounds reads' writes' run')
        | (t, run', Leave) => (t, inl (tt, run'))
        | (t, _, Stop e) => (t, inr e)
        end
    end
  else ([], inl (tt, false)).

End ECHO.

(** What the broadcast-manager demo writes back: the header it read with
    the three fields set, and the frame. *)
Definition bcm_answer (msg : BcmDemo.can_msg) (frame : can_frame) : BcmDemo.can_msg :=
  BcmDemo.mk_msg
    (BcmDemo.set_nframes 1
       (BcmDemo.set_can_id 0 (BcmDemo.set_opcode bcm.TX_SEND (BcmDemo.msg_head msg))))
    frame.

(** *** Traces *)

Definition is_close {P} (e : event P) : bool :=
  match e with Eclose _ _ => true | _ => false end.

Definition is_write {P} (e : event P) : bool :=
  match e with Ewrite _ _ _ => true | _ => false end.

Definition is_stdout {P} (s : string) (e : event P) : bool :=
  match e with Estdout s' => String.eqb s s' | _ => false end.

(** An event of the echo loop: a read, a write, a line, a diagnostic. *)
Definition loop_event {P} (e : event P) : bool :=
  match e with
  | Eread _ _ | Ewrite _ _ _ | Estdout _ | Eerror _ _ => true
  | _ => false
  end.

(** Some event that satisfies [p] comes before one that satisfies [q]. *)
Fixpoint precedes {P} (p q : event P -> bool) (t : list (event P)) : bool :=
  match t with
  | [] => false
  | e :: rest => (p e && existsb q rest) || precedes p q rest
  end.

(** The traffic on the socket, in order. *)
Inductive io (P : Type) : Type :=
| Rd
| Wr (buf : P).
Arguments Rd {P}.
Arguments Wr {P} buf.

Fixpoint io_of {P} (t : list (event P)) : list (io P) :=
  match t with
  | [] => []
  | Eread _ _ :: rest => Rd :: io_of rest
  | Ewrite _ buf _ :: rest => Wr buf :: io_of rest
  | _ :: rest => io_of rest
  end.

(** Every write on the socket comes right after a read of its own: no
    write follows a write. *)
Fixpoint reads_lead {P} (l : list (io P)) : bool :=
  match l with
  | [] => true
  | Rd :: Wr _ :: rest => reads_lead rest
  | Rd :: rest => reads_lead rest
  | Wr _ :: _ => false
  end.

(** A [TX_SEND] of one frame with the transmit identifier [msgid], the
    identifier of the header being zero. *)
Definition tx_send (msgid : Z) (x : io BcmDemo.can_msg) : Prop :=
  match x with
  | Rd => True
  | Wr m =>
      bcm.opcode (BcmDemo.msg_head m) = bcm.TX_SEND /\
      bcm.nframes (BcmDemo.msg_head m) = 1 /\
      bcm.can_id (BcmDemo.msg_head m) = 0 /\
      can_id (BcmDemo.frames m) = msgid
  end.

(** The end of [main] after [close]: the farewell, or the diagnostic. *)
Definition farewell {P} (r_close : sysret unit) : list (event P) :=
  match r_close with
  | Done _ => [Estdout ("Goodbye!" ++ nl)%string]
  | Failed e => [Eerror "close" e]
  end.

Definition final_status (r_close : sysret unit) : Z :=
  match r_close with
  | Done _ => EXIT_SUCCESS
  | Failed _ => EXIT_FAILURE
  end.

(** [cleanup] as events. *)
Definition closing {P} (sfd : Z) (r_close : sysret unit) : list (event P) :=
  [Esigprocmask_block (Only [SIGINT; SIGTERM]); Eclose sfd r_close].

(** [close] is called once in the run, on [sfd], right after SIGINT and
    SIGTERM were blocked. *)
Definition closed_once {P} (run : list (event P) * ending) (sfd : Z) : Prop :=
  exists pre r post,
    fst run = pre ++ closing sfd r ++ post /\
    existsb is_close pre = false /\ existsb is_close post = false.

(** The process came to its end: it is neither blocked nor at fault. *)
Definition terminated {P} (run : list (event P) * ending) : Prop :=
  exists status, snd run = Exit status.

(** A read or write that failed with [e] is followed by its diagnostic,
    by [cleanup], and by the end of [main] that the result of [close]
    decides. *)
Definition closes_after_failure {P} (run : list (event P) * ending)
    (sfd : Z) (r_close : sysret unit) (e : Z) : Prop :=
  (forall fd,
     In (Eread fd (Failed e)) (fst run) ->
     exists t,
       run = (t ++ [Eread sfd (Failed e); Eerror "read" e]
                ++ closing sfd r_close ++ farewell r_close,
              Exit (final_status r_close))) /\
  (forall fd buf,
     In (Ewrite fd buf (Failed e)) (fst run) ->
     exists t,
       run = (t ++ [Ewrite sfd buf (Failed e); Eerror "write" e]
                ++ closing sfd r_close ++ farewell r_close,
              Exit (final_status r_close))).

(** *** Sessions *)

(** The three calls of [init_socket] succeeded: [sfd] is the socket. *)
Definition established {P} (w : world P) (sfd ifindex : Z) : Prop :=
  ret (w_socket w) = Done sfd /\
  ret (w_ioctl w) = Done ifindex /\
  ret (w_addr w) = Done tt.

(** The flag when the loop is reached. *)
Definition run0 {P} (w : world P) : bool :=
  negb (signalled (w_socket w)) && negb (signalled (w_ioctl w))
  && negb (signalled (w_addr w)).

(** [init_socket] as events, when it succeeds. *)
Definition setup_events {P} (k : sock_kind) (iface : string)
    (sfd ifindex : Z) : list (event P) :=
  [Esocket k (Done sfd);
   Eioctl sfd (substring 0 IFNAMSIZ iface) (Done ifindex);
   match k with
   | CAN_RAW => Ebind sfd ifindex (Done tt)
   | CAN_BCM => Econnect sfd ifindex (Done tt)
   end].

(** A run of [main] around its loop: the events [before] the loop, the
    loop [l], and, when the loop is left, [cleanup] and the farewell. *)
Definition finish {P} (before : list (event P)) (sfd : Z)
    (r_close : sysret unit) (l : list (event P) * (unit * bool + ending))
  : list (event P) * ending :=
  match l with
  | (t, inl _) =>
      (before ++ t ++ closing sfd r_close ++ farewell r_close,
       Exit (final_status r_close))
  | (t, inr e) => (before ++ t, e)
  end.

(** The subscription of the broadcast-manager demo was accepted. *)
Definition subscribed (w : world BcmDemo.can_msg) : Prop :=
  exists w0 writes, w_writes w = w0 :: writes /\ ret w0 = Done tt.

(** *** Sample inputs *)

(** The frame of the example scenario, the bytes after the payload being
    [d2] to [d7]. *)
Definition frame_456 (d2 d3 d4 d5 d6 d7 : Z) : can_frame :=
  mk_frame 0x456 2 [0x10; 0x20; d2; d3; d4; d5; d6; d7].

Definition sample_frame : can_frame := frame_456 0 0 0 0 0 0.

(** A frame whose length field exceeds the payload array. *)
Definition long_frame : can_frame := mk_frame 0x123 9 (repeat 0xFF 8).

(** A call that succeeds with no signal on the way. *)
Definition ok {A} (a : A) : reply A := mk_reply false (Done a).

(** A call that SIGINT interrupts: the handler runs, the call fails with
    [EINTR]. *)
Definition interrupted {A} : reply A := mk_reply true (Failed EINTR).

Definition EIO : Z := 5.

(** The frame 0x456 is read, the write of its answer is interrupted by
    SIGINT. *)
Definition world_sigint_in_write : world can_frame :=
  mk_world (ok 3) (ok 7) (ok tt) [ok sample_frame] [interrupted] (Done tt).

(** The first read fails with [EIO]. *)
Definition world_read_error : world can_frame :=
  mk_world (ok 3) (ok 7) (ok tt) [mk_reply false (Failed EIO)] [] (Done tt).

(** SIGINT ends the session at once, and [close] fails with [EIO]. *)
Definition world_close_error : world can_frame :=
  mk_world (ok 3) (ok 7) (ok tt) [interrupted] [] (Failed EIO).

(** The frame 0x456 is echoed, then SIGINT ends the session. *)
Definition world_echo_once : world can_frame :=
  mk_world (ok 3) (ok 7) (ok tt) [ok sample_frame; interrupted] [ok tt]
           (Done tt).

(** What the broadcast manager delivers for the frame [f]: an RX_CHANGED
    header of one frame. *)
Definition rx_changed (f : can_frame) : BcmDemo.can_msg :=
  BcmDemo.mk_msg
    (bcm.mk_head 12 0 0 (bcm.mk_timeval 0 0) (bcm.mk_timeval 0 0) 0x123 1) f.

(** The subscription is accepted, a frame 0x123 is delivered, and the
    write of the answer fails with [EIO]. *)
Definition bcm_world_write_error : world BcmDemo.can_msg :=
  mk_world (ok 4) (ok 7) (ok tt)
           [ok (rx_changed (mk_frame 0x123 2 [0x10; 0x20; 0; 0; 0; 0; 0; 0]))]
           [ok tt; mk_reply false (Failed EIO)] (Failed EIO).

(** *** Statements of the specification, in its own words *)

(** A write that returned [EINTR] is issued again later. *)
Definition write_retried {P} (t : list (event P)) : Prop :=
  forall pre sfd buf post,
    t = pre ++ Ewrite sfd buf (Failed EINTR) :: post ->
    exists r, In (Ewrite sfd buf r) post.

(** A read or write that failed for another reason than an interruption
    makes the exit status a failure. *)
Definition fails_on_io_error {P} (run : list (event P) * ending) : Prop :=
  forall fd e,
    e <> EINTR ->
    In (Eread fd (Failed e)) (fst run) \/
    (exists buf, In (Ewrite fd buf (Failed e)) (fst run)) ->
    snd run = Exit EXIT_FAILURE.

(** A [close] that failed is reported, and the rest of the shutdown is
    carried out: the farewell and the successful return. *)
Definition completes_shutdown {P} (run : list (event P) * ending) : Prop :=
  forall fd e,
    In (Eclose fd (Failed e)) (fst run) ->
    In (Eerror "close" e) (fst run) /\
    In (Estdout ("Goodbye!" ++ nl)%string) (fst run) /\
    snd run = Exit EXIT_SUCCESS.

(** The number of [RX_SETUP] commands in the traffic. *)
Fixpoint rx_setups (l : list (io BcmDemo.can_msg)) : nat :=
  match l with
  | [] => O
  | Wr m :: rest =>
      if bcm.opcode (BcmDemo.msg_head m) =? bcm.RX_SETUP then S (rx_setups rest)
      else rx_setups rest
  | Rd :: rest => rx_setups rest
  end.

(** One step of the increment loop on a byte. *)
Definition inc (b : Z) : Z := (b + 1) mod 256.

(** *** Further vocabulary: frames, scripts and traces *)

(** The length field stays within the payload array. *)
Definition fits (f : can_frame) : Prop :=
  (Z.to_nat (len f) <= List.length (data f))%nat.

(** The text [print_can_frame] writes for a frame that fits. *)
Definition frame_line (f : can_frame) : string :=
  (fmt_X 3 (can_id f) ++ "  [" ++ fmt_u (len f) ++ "] "
   ++ bytes_text (firstn (Z.to_nat (len f)) (data f)))%string.

(** The frame the echo programs send back for [f]: the identifier
    replaced, each byte of the payload incremented. *)
Definition echoed (msgid : Z) (f : can_frame) : can_frame :=
  mk_frame msgid (len f) (map_range inc 0 (Z.to_nat (len f)) (data f)).

(** Every frame the script delivers fits. *)
Definition every_frame_fits {P} (frame_of : P -> can_frame)
    (reads : list (reply P)) : Prop :=
  Forall (fun r => match ret r with
                   | Done p => fits (frame_of p)
                   | Failed _ => True
                   end) reads.

(** The writes of a trace, each with what the read before it delivered:
    [None] when no read, or a failed one, came since the write before. *)
Fixpoint answers {P} (last : option P) (t : list (event P))
  : list (option P * P) :=
  match t with
  | [] => []
  | Eread _ (Done p) :: rest => answers (Some p) rest
  | Eread _ (Failed _) :: rest => answers None rest
  | Ewrite _ buf _ :: rest => (last, buf) :: answers None rest
  | _ :: rest => answers last rest
  end.

(** What [answers] remembers at the end of [t]. *)
Fixpoint pending {P} (last : option P) (t : list (event P)) : option P :=
  match t with
  | [] => last
  | Eread _ (Done p) :: rest => pending (Some p) rest
  | Eread _ (Failed _) :: rest => pending None rest
  | Ewrite _ _ _ :: rest => pending None rest
  | _ :: rest => pending last rest
  end.

(** A read interrupted by a signal that is not a request to shut down:
    [EINTR] with the flag left as it was. *)
Definition spurious {A} (r : reply A) : bool :=
  negb (signalled r) &&
  match ret r with
  | Failed e => e =? EINTR
  | Done _ => false
  end.

Definition is_eintr_read {P} (e : event P) : bool :=
  match e with
  | Eread _ (Failed e) => e =? EINTR
  | _ => false
  end.

(** The trace without its interrupted reads. *)
Definition without_eintr_reads {P} (t : list (event P)) : list (event P) :=
  filter (fun e => negb (is_eintr_read e)) t.

(** The events of a round in which read and write succeed. *)
Definition echo_round {P} (frame_of : P -> can_frame)
    (answer : P -> can_frame -> P) (msgid sfd : Z) (p : P)
  : list (event P) :=
  [Eread sfd (Done p);
   Estdout "RX:  "; Estdout (frame_line (frame_of p)); Estdout nl;
   Ewrite sfd (answer p (echoed msgid (frame_of p))) (Done tt);
   Estdout "TX:  "; Estdout (frame_line (echoed msgid (frame_of p)));
   Estdout nl].

(** The labels [init_socket] gives to its diagnostics. *)
Definition setup_labels : list string := ["socket"; "ioctl"; "bind"].

Definition is_read {P} (e : event P) : bool :=
  match e with Eread _ _ => true | _ => false end.

(** The three calls of [init_socket] of the cyclic demo succeeded. *)
Definition connected (w : CyclicDemo.world) (sfd ifindex : Z) : Prop :=
  ret (CyclicDemo.w_socket w) = Done sfd /\
  ret (CyclicDemo.w_ioctl w) = Done ifindex /\
  ret (CyclicDemo.w_connect w) = Done tt.

(** The run ended in [init_socket]: a diagnostic with one of its labels is
    the last event, the status is a failure, and the socket saw no
    traffic and no [close]. *)
Definition dies_in_setup {P} (run : list (event P) * ending) : Prop :=
  snd run = Exit EXIT_FAILURE /\
  io_of (fst run) = [] /\
  existsb is_close (fst run) = false /\
  exists pre op e, fst run = pre ++ [Eerror op e] /\ In op setup_labels.

(** [init_socket] as events, when one of its calls fails: the calls made
    up to the one that failed, with the error it set, and the diagnostic
    that names the call; the failure of [connect] is reported under the
    name of [bind]. There is none when the three calls succeed. *)
Definition failed_setup {P} (k : sock_kind) (iface : string)
    (rs ri : sysret Z) (ra : sysret unit) : option (list (event P)) :=
  match rs, ri, ra with
  | Failed e, _, _ => Some [Esocket k (Failed e); Eerror "socket" e]
  | Done sfd, Failed e, _ =>
      Some [Esocket k (Done sfd);
            Eioctl sfd (substring 0 IFNAMSIZ iface) (Failed e);
            Eerror "ioctl" e]
  | Done sfd, Done ifindex, Failed e =>
      Some [Esocket k (Done sfd);
            Eioctl sfd (substring 0 IFNAMSIZ iface) (Done ifindex);
            match k with
            | CAN_RAW => Ebind sfd ifindex (Failed e)
            | CAN_BCM => Econnect sfd ifindex (Failed e)
            end;
            Eerror "bind" e]
  | Done _, Done _, Done _ => None
  end.

(** An echo world in which the setup succeeds undisturbed. *)
Definition echo_world {P} (sfd ifindex : Z) (reads : list (reply P))
    (writes : list (reply unit)) (r_close : sysret unit) : world P :=
  mk_world (mk_reply false (Done sfd)) (mk_reply false (Done ifindex))
           (mk_reply false (Done tt)) reads writes r_close.

(** *** The command line (the same code in the three files) *)

Definition VERSION : string := "2.0.0".

(** The text of [print_help]. *)
Definition help_text (progname : string) : string :=
  ("Usage: " ++ progname ++ " [OPTIONS] IFACE" ++ nl ++
   nl ++
   "Arguments:" ++ nl ++
   "  IFACE    CAN network interface (e.g. can0)" ++ nl ++
   nl ++
   "Options:" ++ nl ++
   "  --help, -h       Display this help then exit" ++ nl ++
   "  --version, -V    Display version info then exit" ++ nl)%string.

Definition print_help {P} (progname : string) : Proc P unit :=
  emit (Estdout (help_text progname)).

Definition print_version {P} : Proc P unit :=
  emit (Estdout (VERSION ++ nl)%string).

(** The codes of the options ['V'] and ['h']. *)
Definition opt_V : Z := 86.
Definition opt_h : Z := 104.

(** [getopt_long] belongs to the C library. What one call of it leaves
    behind: the value it returns, the index in [optind], the argument
    vector, which GNU [getopt_long] reorders in place so that the
    arguments that are no options come last, and the line it writes on
    standard error for an option it does not accept ([opterr] is left
    set). *)
Record getopt_outcome : Type := mk_getopt {
  g_opt : Z;
  g_optind : nat;
  g_argv : list string;
  g_message : option string
}.

Definition getopt_long {P} (g : getopt_outcome) : Proc P Z :=
  (match g_message g with
   | Some text => emit (Estderr text)
   | None => pret tt
   end ;;;
   pret (g_opt g))%proc.

(** The loop [for (;;)] of [parse_args], one outcome of [getopt_long] for
    each turn; the value is the outcome of the call that returned -1, at
    the [break]. *)
Fixpoint parse_options {P} (progname : string) (calls : list getopt_outcome)
  : Proc P getopt_outcome :=
  match calls with
  | [] => halt Hang
  | g :: calls' =>
      (opt <- getopt_long g ;;
       if opt =? -1 then pret g                              (* break *)
       else
         (if opt =? opt_V then
            print_version ;;; halt (Exit EXIT_SUCCESS)
          else if opt =? opt_h then
            print_help progname ;;; halt (Exit EXIT_SUCCESS)
          else
            print_help progname ;;; halt (Exit EXIT_FAILURE) : Proc P unit) ;;;
         parse_options progname calls')%proc
  end.

(** [parse_args]; the value is [args->iface], read in the argument vector
    as [getopt_long] left it. *)
Definition parse_args {P} (progname : string) (argc : Z)
    (calls : list getopt_outcome) : Proc P string :=
  (g <- parse_options progname calls ;;
   (if negb (argc - Z.of_nat (g_optind g) =? 1) then
      error 0 0 "exactly one CAN interface argument expected" ;;;
      print_help progname ;;;
      halt (Exit EXIT_FAILURE)
    else pret tt) ;;;
   pret (nth (g_optind g) (g_argv g) EmptyString))%proc.

(** The three [main] functions from their first line; [argc] is the
    length of [argv]. *)
Definition raw_demo (progname : string) (argv : list string)
    (calls : list getopt_outcome) (w : world can_frame) : Proc can_frame Z :=
  (iface <- parse_args progname (Z.of_nat (List.length argv)) calls ;;
   RawDemo.main iface w)%proc.

Definition bcm_demo (progname : string) (argv : list string)
    (calls : list getopt_outcome) (w : world BcmDemo.can_msg)
  : Proc BcmDemo.can_msg Z :=
  (iface <- parse_args progname (Z.of_nat (List.length argv)) calls ;;
   BcmDemo.main iface w)%proc.

Definition cyclic_demo (progname : string) (argv : list string)
    (calls : list getopt_outcome) (w : CyclicDemo.world)
  : Proc CyclicDemo.can_msg Z :=
  (iface <- parse_args progname (Z.of_nat (List.length argv)) calls ;;
   CyclicDemo.main iface w)%proc.

(** Text on standard output or on standard error: no system call on a
    socket. *)
Definition is_output {P} (e : event P) : bool :=
  match e with
  | Estdout _ | Eerror _ _ | Estderr _ => true
  | _ => false
  end.

(** The command line is accepted: the call of [getopt_long] met no option
    and left one argument. *)
Definition accepted (argv : list string) (g : getopt_outcome) : Prop :=
  g_opt g = -1 /\
  Z.of_nat (List.length argv) - Z.of_nat (g_optind g) = 1.

(** What the call of [getopt_long] wrote. *)
Definition complaint {P} (g : getopt_outcome) : list (event P) :=
  match g_message g with
  | Some text => [Estderr text]
  | None => []
  end.

(** The run [run] after the events [t]. *)
Definition preceded {P} (t : list (event P))
    (run : list (event P) * ending) : list (event P) * ending :=
  (t ++ fst run, snd run).

(** How a refused command line ends: with what is written, the line of
    [getopt_long] first, and the status. *)
Definition refusal {P} (progname : string) (g : getopt_outcome)
  : list (event P) * ending :=
  preceded (complaint g)
    (if g_opt g =? -1 then
       ([Eerror "exactly one CAN interface argument expected" 0;
         Estdout (help_text progname)], Exit EXIT_FAILURE)
     else if g_opt g =? opt_V then
       ([Estdout (VERSION ++ nl)%string], Exit EXIT_SUCCESS)
     else if g_opt g =? opt_h then
       ([Estdout (help_text progname)], Exit EXIT_SUCCESS)
     else ([Estdout (help_text progname)], Exit EXIT_FAILURE)).

(** Command lines of the raw demo after the call of [getopt_long]: the
    interface before [--], which the call moves behind it; an option that
    is not known; [-V]; no argument. *)
Definition cli_reordered : list string * getopt_outcome :=
  (["socketcan-raw-demo"; "can0"; "--"],
   mk_getopt (-1) 2 ["socketcan-raw-demo"; "--"; "can0"] None).

Definition cli_unknown_option : list string * getopt_outcome :=
  (["socketcan-raw-demo"; "-x"; "can0"],
   mk_getopt 63 2 ["socketcan-raw-demo"; "-x"; "can0"]
             (Some ("socketcan-raw-demo: invalid option -- 'x'" ++ nl)%string)).

Definition cli_version : list string * getopt_outcome :=
  (["socketcan-raw-demo"; "-V"; "can0"],
   mk_getopt opt_V 2 ["socketcan-raw-demo"; "-V"; "can0"] None).

Definition cli_no_argument : list string * getopt_outcome :=
  (["socketcan-raw-demo"],
   mk_getopt (-1) 1 ["socketcan-raw-demo"] None).

(** No call on the socket in [t]. *)
Definition quiet {P} (t : list (event P)) : bool :=
  match io_of t with [] => true | _ => false end.

(** At most one call on the socket in [t], a write. *)
Definition one_answer {P} (t : list (event P)) : bool :=
  match io_of t with [] | [Wr _] => true | _ => false end.

(** The reads and writes of the trace [t] taken with the replies they
    consumed, call after call: after a write during which SIGINT or
    SIGTERM arrived the socket is not used any more; after a read during
    which it arrived the socket is used for the answer at most, when the
    read gave a message, and not at all when it failed. *)
Fixpoint stops_at_signal {P} (t : list (event P)) (reads : list (reply P))
    (writes : list (reply unit)) : bool :=
  match t with
  | [] => true
  | Eread _ res :: t' =>
      match reads with
      | [] => false
      | r :: reads' =>
          if signalled r then
            match res with
            | Done _ => one_answer t'
            | Failed _ => quiet t'
            end
          else stops_at_signal t' reads' writes
      end
  | Ewrite _ _ _ :: t' =>
      match writes with
      | [] => false
      | w :: writes' =>
          if signalled w then quiet t'
          else stops_at_signal t' reads writes'
      end
  | _ :: t' => stops_at_signal t' reads writes
  end.

(** The messages of a trace that were read without a write before the
    next read, or before the end. *)
Fixpoint unanswered {P} (last : option P) (t : list (event P)) : list P :=
  match t with
  | [] => match last with Some p => [p] | None => [] end
  | Eread _ r :: rest =>
      match last with Some p => [p] | None => [] end
      ++ unanswered (match r with Done p => Some p | Failed _ => None end)
                    rest
  | Ewrite _ _ _ :: rest => unanswered None rest
  | _ :: rest => unanswered last rest
  end.

(** The traffic of [n] rounds in which read and write succeed. *)
Definition echo_traffic {P} (frame_of : P -> can_frame)
    (answer : P -> can_frame -> P) (msgid : Z) (msgs : list P)
  : list (io P) :=
  flat_map (fun m => [Rd; Wr (answer m (echoed msgid (frame_of m)))]) msgs.

Unset Implicit Arguments.

(** ** The frame codec *)

Lemma append_assoc (a b c : string) :
  ((a ++ b) ++ c = a ++ (b ++ c))%string.
Proof. induction a as [|x a IH]; simpl; [reflexivity | now rewrite IH]. Qed.

Lemma digit_char_hex (d : Z) : is_upper_hex (digit_char d) = true.
Proof.
  destruct d as [|p|p]; try reflexivity.
  do 4 (try destruct p as [p|p|]; try reflexivity).
Qed.

Lemma digits_step base k n acc :
  digits base (S k) n acc =
  if n / base =? 0 then n mod base :: acc
  else digits base k (n / base) (n mod base :: acc).
Proof. reflexivity. Qed.

Lemma fmt_X_byte (b : Z) :
  is_byte b ->
  fmt_X 2 b
  = String (digit_char (b / 16)) (String (digit_char (b mod 16)) EmptyString).
Proof.
  intros Hb. unfold fmt_X, is_byte in *.
  change 32%nat with (S (S 30)). rewrite digits_step.
  destruct (b / 16 =? 0) eqn:E.
  - apply Z.eqb_eq in E. rewrite E. reflexivity.
  - rewrite digits_step.
    assert (H : b / 16 / 16 = 0).
    { rewrite Z.div_div by lia. apply Z.div_small. lia. }
    rewrite H. simpl Z.eqb. cbv iota.
    assert (H1 : (b / 16) mod 16 = b / 16).
    { apply Z.mod_small. split; [apply Z.div_pos; lia|].
      apply Z.div_lt_upper_bound; lia. }
    rewrite H1. reflexivity.
Qed.

Lemma zero_pad_length w ds : (w <= List.length (zero_pad w ds))%nat.
Proof. unfold zero_pad. rewrite length_app, repeat_length. lia. Qed.

Lemma skip_hex_digits (l : list Z) (r : string) :
  skip_hex (String " " r) = (O, String " " r) ->
  skip_hex (string_of_list_ascii (map digit_char l) ++ String " " r)
  = (List.length l, String " " r).
Proof.
  intros Hr. induction l as [|d l IH].
  - exact Hr.
  - cbn [map string_of_list_ascii append skip_hex List.length].
    rewrite digit_char_hex, IH. reflexivity.
Qed.

Lemma strip_prefix (p r : string) : strip p (p ++ r) = Some r.
Proof.
  induction p as [|a p IH]; simpl; [now destruct r|].
  now rewrite Ascii.eqb_refl.
Qed.

Lemma byte_fields_bytes_text (l : list Z) :
  Forall is_byte l -> byte_fields (List.length l) (bytes_text l) = true.
Proof.
  induction 1 as [|b l Hb _ IH]; [reflexivity|].
  cbn [bytes_text List.length]. rewrite (fmt_X_byte _ Hb).
  cbn [append byte_fields]. rewrite !digit_char_hex, IH. reflexivity.
Qed.

Lemma bind_some {A B} (m : Mem.t A) (f : A -> Mem.t B) a :
  Mem.value m = Some a ->
  Mem.bind m f
  = Mem.mk (Mem.touched m ++ Mem.touched (f a)) (Mem.value (f a)).
Proof. intros H. unfold Mem.bind. now rewrite H. Qed.

Lemma bind_none {A B} (m : Mem.t A) (f : A -> Mem.t B) :
  Mem.value m = None -> Mem.bind m f = Mem.mk (Mem.touched m) None.
Proof. intros H. unfold Mem.bind. now rewrite H. Qed.

Lemma skipn_nth_error {A} (l : list A) i x :
  nth_error l i = Some x -> skipn i l = x :: skipn (S i) l.
Proof.
  revert i; induction l as [|y l IH]; intros [|i] H; try discriminate.
  - now injection H as ->.
  - simpl in H. now rewrite (skipn_cons i y l), (IH _ H).
Qed.

Lemma nth_error_in_range {A} (l : list A) i :
  (i < List.length l)%nat -> exists x, nth_error l i = Some x.
Proof.
  intros H. destruct (nth_error l i) eqn:E; [eauto|].
  apply nth_error_None in E. lia.
Qed.

(** Within the array the loop prints the [n] bytes from [i] on and touches
    their indices, each once. *)
Lemma print_bytes_in_bounds n : forall data i,
  (i + n <= List.length data)%nat ->
  print_bytes data i n
  = Mem.mk (seq i n) (Some (bytes_text (firstn n (skipn i data)))).
Proof.
  induction n as [|n IH]; intros data i H; [reflexivity|].
  destruct (nth_error_in_range data i) as [b Hb]; [lia|].
  cbn [print_bytes]. rewrite (bind_some (Mem.load data i) _ b) by exact Hb.
  rewrite IH by lia. rewrite (skipn_nth_error _ _ _ Hb).
  unfold Mem.bind.
  cbn [Mem.value Mem.touched Mem.load Mem.ret app firstn bytes_text seq].
  now rewrite app_nil_r.
Qed.

(** Whatever the length field, the loop touches indices below it only. *)
Lemma print_bytes_touched n : forall data i j,
  In j (Mem.touched (print_bytes data i n)) -> (i <= j < i + n)%nat.
Proof.
  induction n as [|n IH]; intros data i j H; [destruct H|].
  cbn [print_bytes] in H. unfold Mem.bind at 1 in H.
  cbn [Mem.load Mem.value Mem.touched] in H.
  destruct (nth_error data i) as [b|].
  - cbn [Mem.touched app] in H. destruct H as [<-|H]; [lia|].
    unfold Mem.bind in H.
    destruct (Mem.value (print_bytes data (S i) n));
      cbn [Mem.touched Mem.ret] in H;
      try rewrite app_nil_r in H; apply IH in H; lia.
  - cbn in H. destruct H as [<-|[]]. lia.
Qed.

(** A length field beyond the array makes the loop read the first byte
    after the array. *)
Lemma print_bytes_overrun n : forall data i,
  (i <= List.length data < i + n)%nat ->
  Mem.value (print_bytes data i n) = None /\
  In (List.length data) (Mem.touched (print_bytes data i n)).
Proof.
  induction n as [|n IH]; intros data i H; [lia|].
  cbn [print_bytes].
  destruct (nth_error data i) as [b|] eqn:E.
  - assert (Hi : (i < List.length data)%nat).
    { apply nth_error_Some. congruence. }
    destruct (IH data (S i)) as [Hv Ht]; [lia|].
    rewrite (bind_some (Mem.load data i) _ b) by exact E.
    rewrite (bind_none _ _ Hv). cbn [Mem.value Mem.touched Mem.load app In].
    split; [reflexivity|]. right. exact Ht.
  - rewrite (bind_none (Mem.load data i)) by exact E.
    apply nth_error_None in E. cbn. split; [reflexivity|]. left. lia.
Qed.

Lemma print_can_frame_in_bounds (f : can_frame) :
  (Z.to_nat (len f) <= List.length (data f))%nat ->
  print_can_frame f
  = Mem.mk (seq 0 (Z.to_nat (len f)))
      (Some (fmt_X 3 (can_id f) ++ "  [" ++ fmt_u (len f) ++ "] "
             ++ bytes_text (firstn (Z.to_nat (len f)) (data f)))%string).
Proof.
  intros H. unfold print_can_frame.
  rewrite print_bytes_in_bounds by (simpl; lia).
  unfold Mem.bind. cbn [Mem.value Mem.touched Mem.ret skipn].
  rewrite app_nil_r, !append_assoc. reflexivity.
Qed.

(** *** The increment loop *)

Lemma update_length {A} (l : list A) : forall i v,
  List.length (update l i v) = List.length l.
Proof.
  induction l as [|x l IH]; intros [|i] v; simpl; try reflexivity.
  now rewrite IH.
Qed.

Lemma map_range_length f l : forall i n,
  List.length (map_range f i n l) = List.length l.
Proof.
  induction l as [|x l IH]; intros [|i] [|n]; simpl; try reflexivity;
    now rewrite IH.
Qed.

Lemma map_range_none f l : forall i, map_range f i 0 l = l.
Proof.
  induction l as [|x l IH]; intros [|i]; simpl; try reflexivity.
  now rewrite IH.
Qed.

Lemma map_range_update f l : forall i n b,
  nth_error l i = Some b ->
  map_range f (S i) n (update l i (f b)) = map_range f i (S n) l.
Proof.
  induction l as [|x l IH]; intros [|i] n b H; try discriminate.
  - injection H as ->. reflexivity.
  - simpl in H. cbn [update map_range]. f_equal.
    specialize (IH i n b H). exact IH.
Qed.

Lemma map_range_ext f g l :
  Forall (fun x => f x = g x) l ->
  forall i n, map_range f i n l = map_range g i n l.
Proof.
  induction 1 as [|x l Hx _ IH]; intros [|i] [|n]; simpl; try reflexivity;
    try (now rewrite IH). now rewrite Hx, IH.
Qed.

Lemma map_range_fixed f l :
  Forall (fun x => f x = x) l -> forall i n, map_range f i n l = l.
Proof.
  induction 1 as [|x l Hx _ IH]; intros [|i] [|n]; simpl; try reflexivity;
    try (now rewrite IH). now rewrite Hx, IH.
Qed.

Lemma map_range_compose f g l : forall i n,
  map_range f i n (map_range g i n l) = map_range (fun x => f (g x)) i n l.
Proof.
  induction l as [|x l IH]; intros [|i] [|n]; simpl; try reflexivity;
    now rewrite IH.
Qed.

Lemma map_range_nth_error f l : forall n j,
  nth_error (map_range f 0 n l) j
  = if (j <? n)%nat then option_map f (nth_error l j) else nth_error l j.
Proof.
  induction l as [|x l IH]; intros n j.
  - simpl. destruct j; destruct (_ <? _)%nat; reflexivity.
  - destruct n as [|n]; [now destruct j|].
    destruct j as [|j]; [reflexivity|].
    cbn [map_range nth_error]. rewrite IH.
    change (S j <? S n)%nat with (j <? n)%nat. reflexivity.
Qed.

(** Within the array the loop adds one, modulo 256, to the [n] bytes from
    [i] on, reading and writing each of them once. *)
Lemma increment_bytes_in_bounds n : forall data i,
  (i + n <= List.length data)%nat ->
  increment_bytes data i n
  = Mem.mk (flat_map (fun j => [j; j]) (seq i n))
           (Some (map_range inc i n data)).
Proof.
  induction n as [|n IH]; intros data i H.
  - cbn. now rewrite map_range_none.
  - destruct (nth_error_in_range data i) as [b Hb]; [lia|].
    cbn [increment_bytes].
    rewrite (bind_some (Mem.load data i) _ b) by exact Hb.
    assert (Hs : Mem.store data i ((b + 1) mod 256)
                 = Mem.mk [i] (Some (update data i (inc b)))).
    { unfold Mem.store. replace (i <? List.length data)%nat with true;
        [reflexivity|]. symmetry. apply Nat.ltb_lt. lia. }
    rewrite Hs.
    rewrite (bind_some _ _ (update data i (inc b))) by reflexivity.
    rewrite IH by (rewrite update_length; lia).
    rewrite (map_range_update inc data i n b Hb).
    reflexivity.
Qed.

Lemma increment_bytes_touched n : forall data i j,
  In j (Mem.touched (increment_bytes data i n)) -> (i <= j < i + n)%nat.
Proof.
  induction n as [|n IH]; intros data i j H; [destruct H|].
  cbn [increment_bytes] in H.
  destruct (nth_error data i) as [b|] eqn:E.
  - rewrite (bind_some (Mem.load data i) _ b) in H by exact E.
    cbn [Mem.touched Mem.load app In] in H. destruct H as [<-|H]; [lia|].
    unfold Mem.bind, Mem.store in H. cbn [Mem.value Mem.touched] in H.
    destruct (i <? List.length data)%nat; cbn [Mem.touched app In] in H.
    + destruct H as [<-|H]; [lia|]. apply IH in H. lia.
    + destruct H as [<-|[]]. lia.
  - rewrite (bind_none (Mem.load data i)) in H by exact E.
    cbn in H. destruct H as [<-|[]]. lia.
Qed.

Lemma increment_bytes_overrun n : forall data i,
  (i <= List.length data < i + n)%nat ->
  Mem.value (increment_bytes data i n) = None /\
  In (List.length data) (Mem.touched (increment_bytes data i n)).
Proof.
  induction n as [|n IH]; intros data i H; [lia|].
  cbn [increment_bytes].
  destruct (nth_error data i) as [b|] eqn:E.
  - assert (Hi : (i < List.length data)%nat).
    { apply nth_error_Some. congruence. }
    rewrite (bind_some (Mem.load data i) _ b) by exact E.
    assert (Hs : Mem.store data i ((b + 1) mod 256)
                 = Mem.mk [i] (Some (update data i (inc b)))).
    { unfold Mem.store. replace (i <? List.length data)%nat with true;
        [reflexivity|]. symmetry. now apply Nat.ltb_lt. }
    rewrite Hs.
    rewrite (bind_some _ _ (update data i (inc b))) by reflexivity.
    destruct (IH (update data i (inc b)) (S i)) as [Hv Ht].
    { rewrite update_length. lia. }
    rewrite update_length in Ht.
    cbn [Mem.value Mem.touched Mem.load app In]. split; [exact Hv|].
    right. right. exact Ht.
  - rewrite (bind_none (Mem.load data i)) by exact E.
    apply nth_error_None in E. cbn. split; [reflexivity|]. left. lia.
Qed.

Lemma increment_payload_in_bounds (f : can_frame) :
  (Z.to_nat (len f) <= List.length (data f))%nat ->
  increment_payload f
  = Mem.mk (flat_map (fun j => [j; j]) (seq 0 (Z.to_nat (len f))))
      (Some (mk_frame (can_id f) (len f)
                      (map_range inc 0 (Z.to_nat (len f)) (data f)))).
Proof.
  intros H. unfold increment_payload.
  rewrite increment_bytes_in_bounds by (simpl; lia).
  unfold Mem.bind. cbn [Mem.value Mem.touched Mem.ret].
  now rewrite app_nil_r.
Qed.

Lemma iter_inc (k : nat) (b : Z) :
  Nat.iter k inc b = (b + Z.of_nat k) mod 256 \/ k = O.
Proof.
  destruct k as [|k]; [now right|]. left.
  induction k as [|k IH].
  - reflexivity.
  - rewrite Nat.iter_succ, IH. unfold inc.
    rewrite Zplus_mod_idemp_l. f_equal. lia.
Qed.

Lemma iter_inc_256 (b : Z) : is_byte b -> Nat.iter 256 inc b = b.
Proof.
  intros Hb. destruct (iter_inc 256 b) as [H|H]; [|discriminate].
  rewrite H. change (Z.of_nat 256) with (1 * 256).
  rewrite Z.mod_add by lia. apply Z.mod_small. exact Hb.
Qed.

(** [k] rounds of the increment loop add one [k] times to each of the first
    [len] bytes. *)
Lemma repeated_increment_payload (k : nat) : forall f,
  (Z.to_nat (len f) <= List.length (data f))%nat ->
  Mem.value (repeated k increment_payload f)
  = Some (mk_frame (can_id f) (len f)
            (map_range (Nat.iter k inc) 0 (Z.to_nat (len f)) (data f))).
Proof.
  induction k as [|k IH]; intros f H.
  - cbn. rewrite map_range_fixed; [now destruct f|].
    apply Forall_forall. reflexivity.
  - cbn [repeated]. rewrite increment_payload_in_bounds by exact H.
    unfold Mem.bind. cbn [Mem.value Mem.touched].
    rewrite IH by (cbn [len data]; rewrite map_range_length; exact H).
    cbn [can_id len data]. rewrite map_range_compose.
    do 2 f_equal. apply map_range_ext. apply Forall_forall. intros x _.
    now rewrite Nat.iter_succ_r.
Qed.

Lemma Forall_firstn {A} (Q : A -> Prop) (l : list A) : forall n,
  Forall Q l -> Forall Q (firstn n l).
Proof.
  induction l as [|x l IH]; intros [|n] H; try constructor;
    inversion H; subst; auto.
Qed.

Lemma sample_frame_wf : wf_frame sample_frame.
Proof.
  split; cbn; try lia; try reflexivity.
  repeat constructor; unfold is_byte; lia.
Qed.

Lemma wf_in_bounds (f : can_frame) :
  wf_frame f -> len f <= 8 -> (Z.to_nat (len f) <= List.length (data f))%nat.
Proof. intros [_ Hl Hs _] H. rewrite Hs. unfold CAN_MAX_DLEN. lia. Qed.



(** ** The echo loops *)

Arguments print_can_frame : simpl never.
Arguments transform : simpl never.

(** Both loops are [rounds]: the same cases on the replies and on the
    payload computations, one round at a time. *)
Ltac loop_is_rounds IH :=
  cbn; unfold round, mem; cbn;
  repeat match goal with
         | |- context [Mem.value ?m] =>
             destruct (Mem.value m); cbn; [|reflexivity]
         | |- context [match ?ws with [] => _ | _ :: _ => _ end] =>
             is_var ws; destruct ws as [|[? [[]|?]] ?]; cbn; [reflexivity| |]
         | |- context [?e =? EINTR] =>
             destruct (e =? EINTR); cbn; [|reflexivity]
         end;
  rewrite IH; reflexivity.

Lemma raw_loop_rounds sfd reads : forall writes run,
  RawDemo.loop sfd reads writes run
  = rounds (fun f => f) (fun _ f => f) RawDemo.MSGID sfd reads writes run.
Proof.
  induction reads as [|[s [f|e]] reads IH]; intros writes [|];
    try reflexivity; loop_is_rounds IH.
Qed.

Lemma bcm_loop_rounds sfd reads : forall writes run,
  BcmDemo.loop sfd reads writes run
  = rounds BcmDemo.frames bcm_answer BcmDemo.MSGID sfd reads writes run.
Proof.
  induction reads as [|[s [m|e]] reads IH]; intros writes [|];
    try reflexivity; loop_is_rounds IH.
Qed.

(** Membership in a list that is written out, case by case. *)
Ltac in_cases H :=
  cbn in H;
  repeat match type of H with
         | _ \/ _ => destruct H as [H|H]
         end;
  try contradiction; try discriminate.

(** Membership in a list that is written out, by search. *)
Ltac in_list := cbn; repeat (first [left; reflexivity | right]).

Section ROUNDS.

Variable P : Type.
Variable frame_of : P -> can_frame.
Variable answer : P -> can_frame -> P.
Variable msgid : Z.
Variable sfd : Z.

Local Abbreviation round := (round frame_of answer msgid sfd).
Local Abbreviation rounds := (rounds frame_of answer msgid sfd).

(** Every case of [round], by the replies and the payload computations. *)
Ltac round_cases r writes :=
  unfold round; destruct r as [s [p|e]]; cbn [ret signalled];
  [ destruct (Mem.value (print_can_frame (frame_of p))) as [rx|];
    [ destruct (Mem.value (transform msgid (frame_of p))) as [f'|];
      [ destruct writes as [|[s' [[]|e]] writes]; cbn [ret signalled];
        [ | destruct (Mem.value (print_can_frame f')) as [tx|]
          | destruct (e =? EINTR) eqn:Eintr ]
      | ]
    | ]
  | destruct (e =? EINTR) eqn:Eintr ].

Lemma rounds_stopped reads writes :
  rounds reads writes false = ([], inl (tt, false)).
Proof. destruct reads; reflexivity. Qed.

Lemma round_loop_events r writes :
  Forall (fun e => loop_event e = true) (fst (fst (round r writes))).
Proof. round_cases r writes; cbn; repeat constructor. Qed.

Lemma rounds_loop_events reads : forall writes run,
  Forall (fun e => loop_event e = true) (fst (rounds reads writes run)).
Proof.
  induction reads as [|r reads IH]; intros writes [|]; cbn [rounds fst];
    try constructor.
  pose proof (round_loop_events r writes) as Hr.
  destruct (round r writes) as [[t run'] [ws| |e]]; cbn [fst] in *;
    try exact Hr.
  apply Forall_app. split; [exact Hr | apply IH].
Qed.

Lemma round_read_failure r writes fd err :
  err <> EINTR ->
  In (Eread fd (Failed err)) (fst (fst (round r writes))) ->
  fd = sfd /\
  round r writes
  = ([Eread sfd (Failed err); Eerror "read" err], negb (signalled r), Leave).
Proof.
  intros He H. revert H. round_cases r writes; intros H; in_cases H;
    injection H as -> ->.
  - apply Z.eqb_eq in Eintr. contradiction.
  - split; reflexivity.
Qed.

Lemma round_write_failure r writes fd buf err :
  err <> EINTR ->
  In (Ewrite fd buf (Failed err)) (fst (fst (round r writes))) ->
  fd = sfd /\
  exists pre run',
    round r writes
    = (pre ++ [Ewrite sfd buf (Failed err); Eerror "write" err], run', Leave).
Proof.
  intros He H. revert H. round_cases r writes; intros H; in_cases H;
    injection H as -> -> ->.
  - apply Z.eqb_eq in Eintr. contradiction.
  - split; [reflexivity|]. eexists [_; _; _; _], _. reflexivity.
Qed.

Lemma rounds_read_failure reads : forall writes run s e,
  e <> EINTR ->
  In (Eread s (Failed e)) (fst (rounds reads writes run)) ->
  s = sfd /\
  exists t run',
    rounds reads writes run
    = (t ++ [Eread sfd (Failed e); Eerror "read" e], inl (tt, run')).
Proof.
  induction reads as [|r reads IH]; intros writes [|] s e He H;
    cbn [rounds fst] in *; try contradiction.
  pose proof (round_read_failure r writes s e He) as Hr.
  destruct (round r writes) as [[t run'] nx]. cbn [fst] in Hr.
  destruct nx as [ws| |e'].
  - cbn [after fst] in H. apply in_app_or in H. destruct H as [H|H].
    + destruct (Hr H) as [_ Hr']. discriminate.
    + destruct (IH ws run' s e He H) as [-> (t' & r' & E)].
      split; [reflexivity|]. exists (t ++ t'), r'.
      rewrite E. unfold after. cbn [fst snd]. now rewrite app_assoc.
  - destruct (Hr H) as [-> Hr']. injection Hr' as -> ->.
    split; [reflexivity|]. now exists [], (negb (signalled r)).
  - destruct (Hr H) as [_ Hr']. discriminate.
Qed.

Lemma rounds_write_failure reads : forall writes run s buf e,
  e <> EINTR ->
  In (Ewrite s buf (Failed e)) (fst (rounds reads writes run)) ->
  s = sfd /\
  exists t run',
    rounds reads writes run
    = (t ++ [Ewrite sfd buf (Failed e); Eerror "write" e], inl (tt, run')).
Proof.
  induction reads as [|r reads IH]; intros writes [|] s buf e He H;
    cbn [rounds fst] in *; try contradiction.
  pose proof (round_write_failure r writes s buf e He) as Hr.
  destruct (round r writes) as [[t run'] nx]. cbn [fst] in Hr.
  destruct nx as [ws| |e'].
  - cbn [after fst] in H. apply in_app_or in H. destruct H as [H|H].
    + destruct (Hr H) as [_ (pre & r' & Hr')]. discriminate.
    + destruct (IH ws run' s buf e He H) as [-> (t' & r' & E)].
      split; [reflexivity|]. exists (t ++ t'), r'.
      rewrite E. unfold after. cbn [fst snd]. now rewrite app_assoc.
  - destruct (Hr H) as [-> (pre & r' & Hr')]. injection Hr' as -> ->.
    split; [reflexivity|]. now exists pre, r'.
  - destruct (Hr H) as [_ (pre & r' & Hr')]. discriminate.
Qed.

Lemma round_stop r writes t run' how :
  round r writes = (t, run', Stop how) -> how = Hang \/ how = Fault.
Proof.
  round_cases r writes; intros H; try discriminate;
    injection H as _ _ <-; auto.
Qed.

(** The loop itself never ends the process. *)
Lemma rounds_ending reads : forall writes run t e,
  rounds reads writes run = (t, inr e) -> e = Hang \/ e = Fault.
Proof.
  induction reads as [|r reads IH]; intros writes [|] t e H;
    cbn [rounds] in H; try discriminate.
  - injection H as _ <-. now left.
  - pose proof (round_stop r writes) as Hr.
    destruct (round r writes) as [[t' run'] [ws| |e']].
    + unfold after in H. destruct (rounds reads ws run') as [t2 [x|e2]] eqn:E;
        cbn [fst snd] in H; [discriminate|].
      injection H as _ <-. eapply IH. exact E.
    + discriminate.
    + injection H as _ <-. eapply Hr. reflexivity.
Qed.

Lemma io_of_app (t1 t2 : list (event P)) :
  io_of (t1 ++ t2) = io_of t1 ++ io_of t2.
Proof.
  induction t1 as [|x t1 IH]; [reflexivity|].
  destruct x; cbn [app io_of]; now rewrite IH.
Qed.

(** What a round puts on the socket: a read, and at most one write. *)
Lemma round_io r writes :
  io_of (fst (fst (round r writes))) = [Rd] \/
  exists p frame,
    io_of (fst (fst (round r writes))) = [Rd; Wr (answer p frame)] /\
    Mem.value (transform msgid (frame_of p)) = Some frame.
Proof.
  unfold round. destruct r as [s [p|e]]; cbn [ret signalled].
  - destruct (Mem.value (print_can_frame (frame_of p))) as [rx|];
      [|now left].
    destruct (Mem.value (transform msgid (frame_of p))) as [f'|] eqn:Ef;
      [|now left].
    destruct writes as [|[s' [[]|e]] writes]; cbn [ret signalled];
      [now left| |].
    + right. exists p, f'. split; [|exact Ef].
      now destruct (Mem.value (print_can_frame f')).
    + right. exists p, f'. split; [|exact Ef].
      now destruct (e =? EINTR).
  - left. now destruct (e =? EINTR).
Qed.

Lemma rounds_reads_lead reads : forall writes run,
  reads_lead (io_of (fst (rounds reads writes run))) = true.
Proof.
  induction reads as [|r reads IH]; intros writes [|]; try reflexivity.
  cbn [rounds]. pose proof (round_io r writes) as Hr.
  destruct (round r writes) as [[t run'] nx]. cbn [fst] in Hr.
  assert (Happ : forall rest, reads_lead rest = true ->
                   reads_lead (io_of t ++ rest) = true).
  { intros rest Hrest.
    destruct Hr as [->|(p & f' & -> & _)]; cbn; [|exact Hrest].
    destruct rest as [|[|b] rest]; [reflexivity|exact Hrest|discriminate]. }
  destruct nx as [ws| |e]; cbn [after fst].
  - rewrite io_of_app. apply Happ, IH.
  - rewrite <- (app_nil_r (io_of t)). now apply Happ.
  - rewrite <- (app_nil_r (io_of t)). now apply Happ.
Qed.

(** Every buffer written by the loop is an answer to what was read, around
    the transformed frame. *)
Lemma rounds_io reads : forall writes run,
  Forall (fun x => match x with
                   | Rd => True
                   | Wr b => exists p frame,
                       b = answer p frame /\
                       Mem.value (transform msgid (frame_of p)) = Some frame
                   end)
         (io_of (fst (rounds reads writes run))).
Proof.
  induction reads as [|r reads IH]; intros writes [|]; try constructor.
  cbn [rounds]. pose proof (round_io r writes) as Hr.
  destruct (round r writes) as [[t run'] nx]. cbn [fst] in Hr.
  assert (Ht : Forall (fun x => match x with
                   | Rd => True
                   | Wr b => exists p frame,
                       b = answer p frame /\
                       Mem.value (transform msgid (frame_of p)) = Some frame
                   end) (io_of t)).
  { destruct Hr as [->|(p & f' & -> & Hf)]; repeat constructor; eauto. }
  destruct nx as [ws| |e]; cbn [after fst]; try exact Ht.
  rewrite io_of_app. apply Forall_app. split; [exact Ht | apply IH].
Qed.

End ROUNDS.

(** ** The runs of the echo programs *)

(** The end of [main], from the loop on. *)
Lemma loop_then_cleanup {P} (l : Proc P unit) sfd cr run :
  (l ;;; cleanup sfd cr ;;;
   emit (Estdout ("Goodbye!" ++ nl)%string) ;;; pret EXIT_SUCCESS)%proc run
  = match l run with
    | (t, inl (_, run')) =>
        (t ++ closing sfd cr ++ farewell cr,
         match cr with
         | Done _ => inl (EXIT_SUCCESS, run')
         | Failed _ => inr (Exit EXIT_FAILURE)
         end)
    | (t, inr e) => (t, inr e)
    end.
Proof.
  unfold pbind. destruct (l run) as [t [[[] run']|e]]; [|reflexivity].
  destruct cr as [[]|e]; reflexivity.
Qed.

Lemma pbind_run {P A B} (m : Proc P A) (f : A -> Proc P B) run t a run' :
  m run = (t, inl (a, run')) ->
  pbind m f run = (t ++ fst (f a run'), snd (f a run')).
Proof. intros H. unfold pbind. now rewrite H. Qed.

Lemma init_socket_established {P} k iface (w : world P) sfd ifindex :
  established w sfd ifindex ->
  @init_socket P k iface (w_socket w) (w_ioctl w) (w_addr w) true
  = (setup_events k iface sfd ifindex, inl (sfd, run0 w)).
Proof.
  destruct w as [[s1 r1] [s2 r2] [s3 r3] reads writes cr].
  intros (H1 & H2 & H3). cbn in H1, H2, H3. subst r1 r2 r3.
  destruct k; reflexivity.
Qed.

Lemma raw_main_run iface (w : world can_frame) sfd ifindex :
  established w sfd ifindex ->
  exec (RawDemo.main iface w)
  = finish (setup_events CAN_RAW iface sfd ifindex) sfd (w_close w)
      (rounds (fun f => f) (fun _ f => f) RawDemo.MSGID sfd
              (w_reads w) (w_writes w) (run0 w)).
Proof.
  intros H. unfold exec, RawDemo.main.
  rewrite (pbind_run _ _ _ _ _ _ (init_socket_established _ iface w _ _ H)).
  rewrite loop_then_cleanup, raw_loop_rounds.
  destruct (rounds _ _ _ _ _ _ _) as [t [[[] run']|e]]; [|reflexivity].
  destruct (w_close w) as [[]|e]; reflexivity.
Qed.

Lemma bcm_main_run iface (w : world BcmDemo.can_msg) sfd ifindex w0 writes :
  established w sfd ifindex ->
  w_writes w = w0 :: writes -> ret w0 = Done tt ->
  exec (BcmDemo.main iface w)
  = finish (setup_events CAN_BCM iface sfd ifindex
              ++ [Ewrite sfd BcmDemo.rx_setup_msg (Done tt)])
      sfd (w_close w)
      (rounds BcmDemo.frames bcm_answer BcmDemo.MSGID sfd
              (w_reads w) writes (run0 w && negb (signalled w0))).
Proof.
  intros H Hw H0. unfold exec, BcmDemo.main.
  rewrite (pbind_run _ _ _ _ _ _ (init_socket_established _ iface w _ _ H)).
  rewrite Hw. destruct w0 as [s0 r0]. cbn [ret signalled] in *. subst r0.
  rewrite (pbind_run _ _ _ [Ewrite sfd BcmDemo.rx_setup_msg (Done tt)] (Done tt)
             (run0 w && negb s0)) by reflexivity.
  rewrite (pbind_run _ _ _ [] tt (run0 w && negb s0)) by reflexivity.
  rewrite loop_then_cleanup, bcm_loop_rounds.
  destruct (rounds _ _ _ _ _ _ _) as [t [[[] run']|e]];
    [destruct (w_close w) as [[]|e]|];
    unfold finish; cbn [fst snd app]; now rewrite <- app_assoc.
Qed.

(** *** The model at work *)

Example fmt_X_pads : fmt_X 3 0x7 = "007" /\ fmt_X 3 0x1FFFFFFF = "1FFFFFFF".
Proof. split; reflexivity. Qed.

Example fmt_u_decimal : fmt_u 0 = "0" /\ fmt_u 8 = "8" /\ fmt_u 255 = "255".
Proof. repeat split; reflexivity. Qed.

Example print_sample_frame :
  print_can_frame sample_frame = Mem.mk [0; 1]%nat (Some "456  [2]  10 20").
Proof. reflexivity. Qed.

Example print_empty_frame :
  Mem.value (print_can_frame zero_frame) = Some "000  [0] ".
Proof. reflexivity. Qed.

Example increment_wraps_byte :
  Mem.value (increment_payload (mk_frame 1 2 [0xFF; 0x7F; 9; 0; 0; 0; 0; 0]))
  = Some (mk_frame 1 2 [0x00; 0x80; 9; 0; 0; 0; 0; 0]).
Proof. reflexivity. Qed.

Example print_long_frame :
  print_can_frame long_frame
  = Mem.mk [0; 1; 2; 3; 4; 5; 6; 7; 8]%nat None.
Proof. reflexivity. Qed.

(** ** Properties of the frame codec *)

(** C5, amended. For every frame with length <= 8, [print_can_frame]
    yields one text, a function of the frame alone: the identifier as 3 or
    more upper-case hexadecimal digits, two spaces, ['['], the decimal
    length, [']'], ONE SPACE, then exactly [length] fields, each a space and
    the two upper-case hexadecimal digits of a payload byte, and nothing
    else. The space after the bracket comes from the format string
    ["%03X  [%u] "]; the pattern of the specification leaves it out. *)
Theorem print_can_frame_text (f : can_frame) :
  wf_frame f -> len f <= 8 ->
  exists s,
    Mem.value (print_can_frame f) = Some s /\
    s = (fmt_X 3 (can_id f) ++ "  [" ++ fmt_u (len f) ++ "] "
         ++ bytes_text (firstn (Z.to_nat (len f)) (data f)))%string /\
    code_frame_text (len f) s = true.
Proof.
  intros Hwf Hlen. pose proof (wf_in_bounds f Hwf Hlen) as Hb.
  rewrite print_can_frame_in_bounds by exact Hb.
  eexists. split; [reflexivity|]. split; [reflexivity|].
  unfold code_frame_text, frame_text. unfold fmt_X at 1.
  cbn [append].
  rewrite skip_hex_digits by reflexivity.
  replace (3 <=? _)%nat with true
    by (symmetry; apply Nat.leb_le, zero_pad_length).
  cbn [andb strip]. rewrite !Ascii.eqb_refl.
  replace (fmt_u (len f) ++ String "]" (String " "
             (bytes_text (firstn (Z.to_nat (len f)) (data f)))))%string
    with ((fmt_u (len f) ++ "] ")
          ++ bytes_text (firstn (Z.to_nat (len f)) (data f)))%string
    by (now rewrite append_assoc).
  rewrite strip_prefix.
  rewrite <- (firstn_length_le (data f) Hb) at 1.
  apply byte_fields_bytes_text, Forall_firstn, Hwf.
Qed.

Lemma print_can_frame_text_witness :
  exists s,
    Mem.value (print_can_frame sample_frame) = Some s /\
    s = (fmt_X 3 (can_id sample_frame) ++ "  [" ++ fmt_u (len sample_frame)
         ++ "] " ++ bytes_text (firstn (Z.to_nat (len sample_frame))
                                       (data sample_frame)))%string /\
    code_frame_text (len sample_frame) s = true.
Proof.
  apply (print_can_frame_text sample_frame sample_frame_wf).
  cbn. lia.
Defined.

(** C5 as stated fails: the text of the frame 0x456 [2] 10 20 has two
    spaces between the bracket and the first byte, so it does not match
    the pattern in which the byte fields follow the bracket at once. *)
Lemma print_can_frame_text_spec_pattern_fails :
  Mem.value (print_can_frame sample_frame) = Some "456  [2]  10 20" /\
  spec_frame_text (len sample_frame) "456  [2]  10 20" = false /\
  code_frame_text (len sample_frame) "456  [2]  10 20" = true.
Proof. repeat split; vm_compute; reflexivity. Qed.

Lemma byte_fields_after_space n (l : list Z) :
  byte_fields n (String " " (bytes_text l)) = false.
Proof.
  destruct n as [|n]; [reflexivity|].
  destruct l as [|b l]; [reflexivity|].
  cbn [bytes_text append byte_fields].
  destruct (fmt_X 2 b ++ bytes_text l)%string; reflexivity.
Qed.

(** The pattern with the byte fields right after the bracket matches the
    text of no frame: the space of the format string is always there. *)
Lemma spec_frame_text_never_matches (f : can_frame) s :
  wf_frame f -> len f <= 8 ->
  Mem.value (print_can_frame f) = Some s ->
  spec_frame_text (len f) s = false.
Proof.
  intros Hwf Hlen. pose proof (wf_in_bounds f Hwf Hlen) as Hb.
  rewrite print_can_frame_in_bounds by exact Hb. intros [= <-].
  unfold spec_frame_text, frame_text. unfold fmt_X at 1.
  cbn [append].
  rewrite skip_hex_digits by reflexivity.
  cbn [strip]. rewrite !Ascii.eqb_refl.
  replace (fmt_u (len f) ++ String "]" (String " "
             (bytes_text (firstn (Z.to_nat (len f)) (data f)))))%string
    with ((fmt_u (len f) ++ "]")
          ++ String " " (bytes_text (firstn (Z.to_nat (len f)) (data f))))%string
    by (now rewrite append_assoc).
  rewrite strip_prefix, byte_fields_after_space.
  apply andb_false_r.
Qed.

(** C6. For every frame with length <= 8 the increment loop cannot fail:
    one application keeps identifier and length and adds 1 modulo 256 to
    each of the first [length] bytes, leaving the others; 256 applications
    give back the first [length] bytes of the frame (and with them the
    whole frame). *)
Theorem increment_payload_wraps (f : can_frame) :
  wf_frame f -> len f <= 8 ->
  (exists g,
     Mem.value (increment_payload f) = Some g /\
     can_id g = can_id f /\ len g = len f /\
     List.length (data g) = List.length (data f) /\
     forall j,
       nth_error (data g) j
       = if (j <? Z.to_nat (len f))%nat
         then option_map (fun b => (b + 1) mod 256) (nth_error (data f) j)
         else nth_error (data f) j) /\
  (exists h,
     Mem.value (repeated 256 increment_payload f) = Some h /\
     firstn (Z.to_nat (len f)) (data h) = firstn (Z.to_nat (len f)) (data f) /\
     h = f).
Proof.
  intros Hwf Hlen. pose proof (wf_in_bounds f Hwf Hlen) as Hb. split.
  - rewrite increment_payload_in_bounds by exact Hb.
    eexists. split; [reflexivity|]. cbn [can_id len data].
    repeat split. + apply map_range_length. + apply map_range_nth_error.
  - rewrite repeated_increment_payload by exact Hb.
    eexists. split; [reflexivity|].
    assert (E : map_range (Nat.iter 256 inc) 0 (Z.to_nat (len f)) (data f)
                = data f).
    { apply map_range_fixed. eapply Forall_impl; [|apply Hwf].
      intros b Hbyte. now apply iter_inc_256. }
    rewrite E. split; [reflexivity|]. now destruct f.
Qed.

Lemma increment_payload_wraps_witness :
  (exists g,
     Mem.value (increment_payload sample_frame) = Some g /\
     can_id g = can_id sample_frame /\ len g = len sample_frame /\
     List.length (data g) = List.length (data sample_frame) /\
     forall j,
       nth_error (data g) j
       = if (j <? Z.to_nat (len sample_frame))%nat
         then option_map (fun b => (b + 1) mod 256)
                         (nth_error (data sample_frame) j)
         else nth_error (data sample_frame) j) /\
  (exists h,
     Mem.value (repeated 256 increment_payload sample_frame) = Some h /\
     firstn (Z.to_nat (len sample_frame)) (data h)
     = firstn (Z.to_nat (len sample_frame)) (data sample_frame) /\
     h = sample_frame).
Proof.
  apply (increment_payload_wraps sample_frame sample_frame_wf).
  cbn. lia.
Defined.

Lemma print_can_frame_touched (f : can_frame) :
  Mem.touched (print_can_frame f)
  = Mem.touched (print_bytes (data f) 0 (Z.to_nat (len f))).
Proof.
  unfold print_can_frame, Mem.bind.
  destruct (Mem.value (print_bytes _ _ _)); cbn [Mem.touched Mem.ret];
    [apply app_nil_r | reflexivity].
Qed.

Lemma increment_payload_touched (f : can_frame) :
  Mem.touched (increment_payload f)
  = Mem.touched (increment_bytes (data f) 0 (Z.to_nat (len f))).
Proof.
  unfold increment_payload, Mem.bind.
  destruct (Mem.value (increment_bytes _ _ _)); cbn [Mem.touched Mem.ret];
    [apply app_nil_r | reflexivity].
Qed.

Lemma bind_value_none {A B} (m : Mem.t A) (f : A -> Mem.t B) :
  Mem.value m = None -> Mem.value (Mem.bind m f) = None.
Proof. intros H. unfold Mem.bind. now rewrite H. Qed.

(** C10. [print_can_frame] and the increment loop touch [data[j]] for
    [j] below the length field only, and nothing in them compares that
    field with the size of the array: with length <= 8 every access falls
    within the 8 bytes and the computation has a value; with a longer
    length both go on to [data[8]], the first byte past the array. *)
Theorem payload_accesses_below_length (f : can_frame) :
  List.length (data f) = CAN_MAX_DLEN ->
  (forall j, In j (Mem.touched (print_can_frame f)) ->
             (j < Z.to_nat (len f))%nat) /\
  (forall j, In j (Mem.touched (increment_payload f)) ->
             (j < Z.to_nat (len f))%nat) /\
  (len f <= 8 ->
   Forall (fun j => (j < CAN_MAX_DLEN)%nat) (Mem.touched (print_can_frame f)) /\
   Forall (fun j => (j < CAN_MAX_DLEN)%nat)
          (Mem.touched (increment_payload f)) /\
   Mem.value (print_can_frame f) <> None /\
   Mem.value (increment_payload f) <> None) /\
  (8 < len f ->
   In CAN_MAX_DLEN (Mem.touched (print_can_frame f)) /\
   In CAN_MAX_DLEN (Mem.touched (increment_payload f)) /\
   Mem.value (print_can_frame f) = None /\
   Mem.value (increment_payload f) = None).
Proof.
  intros Hsize.
  assert (Hp : forall j, In j (Mem.touched (print_can_frame f)) ->
                         (j < Z.to_nat (len f))%nat).
  { intros j H. rewrite print_can_frame_touched in H.
    apply print_bytes_touched in H. lia. }
  assert (Hi : forall j, In j (Mem.touched (increment_payload f)) ->
                         (j < Z.to_nat (len f))%nat).
  { intros j H. rewrite increment_payload_touched in H.
    apply increment_bytes_touched in H. lia. }
  split; [exact Hp|]. split; [exact Hi|]. split.
  - intros Hlen.
    assert (Hb : (Z.to_nat (len f) <= List.length (data f))%nat).
    { rewrite Hsize. unfold CAN_MAX_DLEN. lia. }
    repeat split.
    + apply Forall_forall. intros j H. apply Hp in H.
      unfold CAN_MAX_DLEN. lia.
    + apply Forall_forall. intros j H. apply Hi in H.
      unfold CAN_MAX_DLEN. lia.
    + now rewrite print_can_frame_in_bounds by exact Hb.
    + now rewrite increment_payload_in_bounds by exact Hb.
  - intros Hlen.
    destruct (print_bytes_overrun (Z.to_nat (len f)) (data f) 0) as [Hv Ht].
    { rewrite Hsize. unfold CAN_MAX_DLEN. lia. }
    destruct (increment_bytes_overrun (Z.to_nat (len f)) (data f) 0)
      as [Hv' Ht'].
    { rewrite Hsize. unfold CAN_MAX_DLEN. lia. }
    rewrite Hsize in Ht, Ht'.
    rewrite print_can_frame_touched, increment_payload_touched.
    repeat split; try assumption.
    + unfold print_can_frame. now apply bind_value_none.
    + unfold increment_payload. now apply bind_value_none.
Qed.

Lemma payload_accesses_below_length_witness :
  (Forall (fun j => (j < CAN_MAX_DLEN)%nat)
          (Mem.touched (print_can_frame sample_frame)) /\
   Forall (fun j => (j < CAN_MAX_DLEN)%nat)
          (Mem.touched (increment_payload sample_frame)) /\
   Mem.value (print_can_frame sample_frame) <> None /\
   Mem.value (increment_payload sample_frame) <> None) /\
  (In CAN_MAX_DLEN (Mem.touched (print_can_frame long_frame)) /\
   In CAN_MAX_DLEN (Mem.touched (increment_payload long_frame)) /\
   Mem.value (print_can_frame long_frame) = None /\
   Mem.value (increment_payload long_frame) = None).
Proof.
  split.
  - apply (payload_accesses_below_length sample_frame eq_refl). cbn. lia.
  - apply (payload_accesses_below_length long_frame eq_refl). cbn. lia.
Defined.

(** ** The runs around the loop *)

Lemma existsb_false_in {A} (p : A -> bool) (l : list A) x :
  existsb p l = false -> In x l -> p x = false.
Proof.
  intros H Hin. destruct (p x) eqn:E; [|reflexivity].
  assert (existsb p l = true) by (apply existsb_exists; eauto). congruence.
Qed.

Lemma loop_events_no_close {P} (t : list (event P)) :
  Forall (fun e => loop_event e = true) t -> existsb is_close t = false.
Proof.
  induction 1 as [|x t Hx _ IH]; [reflexivity|].
  cbn [existsb]. rewrite IH. now destruct x.
Qed.

Section FINISH.

Variable P : Type.
Variable frame_of : P -> can_frame.
Variable answer : P -> can_frame -> P.
Variable msgid : Z.
Variable sfd : Z.
Variable before : list (event P).
Variable r_close : sysret unit.

Local Abbreviation rounds := (rounds frame_of answer msgid sfd).

Hypothesis before_no_close : existsb is_close before = false.
Hypothesis before_no_failed_read :
  forall fd e, ~ In (Eread fd (Failed e)) before.
Hypothesis before_no_failed_write :
  forall fd buf e, ~ In (Ewrite fd buf (Failed e)) before.

Lemma finish_closed_once reads writes run :
  terminated (finish before sfd r_close (rounds reads writes run)) ->
  closed_once (finish before sfd r_close (rounds reads writes run)) sfd.
Proof.
  intros [status H].
  pose proof (rounds_loop_events P frame_of answer msgid sfd reads writes run)
    as Hl.
  destruct (rounds reads writes run) as [t [x|e]] eqn:E; cbn [finish fst snd] in *.
  - exists (before ++ t), r_close, (farewell r_close).
    split; [now rewrite <- app_assoc|]. split.
    + rewrite existsb_app, before_no_close. now apply loop_events_no_close.
    + now destruct r_close.
  - apply rounds_ending in E. destruct E; subst e; discriminate.
Qed.

Lemma finish_close_failure reads writes run fd e :
  In (Eclose fd (Failed e))
     (fst (finish before sfd r_close (rounds reads writes run))) ->
  fd = sfd /\ r_close = Failed e /\
  exists pre,
    finish before sfd r_close (rounds reads writes run)
    = (pre ++ [Eclose sfd (Failed e); Eerror "close" e], Exit EXIT_FAILURE).
Proof.
  intros H.
  pose proof (rounds_loop_events P frame_of answer msgid sfd reads writes run)
    as Hl.
  assert (Hno : forall t, Forall (fun e => loop_event e = true) t ->
                  ~ In (Eclose fd (Failed e)) (before ++ t)).
  { intros t Ht Hin. apply in_app_or in Hin. destruct Hin as [Hin|Hin].
    - apply (existsb_false_in _ _ _ before_no_close) in Hin. discriminate.
    - apply (existsb_false_in _ _ _ (loop_events_no_close t Ht)) in Hin.
      discriminate. }
  destruct (rounds reads writes run) as [t [x|how]]; cbn [finish fst snd] in *.
  - rewrite app_assoc in H. apply in_app_or in H. destruct H as [H|H].
    + now apply Hno in H.
    + destruct r_close as [[]|e']; in_cases H.
      injection H as -> ->. repeat split.
      exists (before ++ t ++ [Esigprocmask_block (Only [SIGINT; SIGTERM])]).
      unfold closing, farewell, final_status.
      now rewrite <- !app_assoc.
  - now apply Hno in H.
Qed.

Lemma finish_read_failure reads writes run fd e :
  e <> EINTR ->
  In (Eread fd (Failed e))
     (fst (finish before sfd r_close (rounds reads writes run))) ->
  exists t,
    finish before sfd r_close (rounds reads writes run)
    = (t ++ [Eread sfd (Failed e); Eerror "read" e]
         ++ closing sfd r_close ++ farewell r_close,
       Exit (final_status r_close)).
Proof.
  intros He H.
  pose proof (rounds_read_failure P frame_of answer msgid sfd
                reads writes run fd e He) as Hr.
  destruct (rounds reads writes run) as [t [x|how]]; cbn [finish fst snd] in *.
  - apply in_app_or in H. destruct H as [H|H];
      [now apply before_no_failed_read in H|].
    apply in_app_or in H. destruct H as [H|H].
    + destruct (Hr H) as [_ (t' & run' & E)]. injection E as -> _.
      exists (before ++ t'). now rewrite <- !app_assoc.
    + destruct r_close as [[]|e']; in_cases H.
  - apply in_app_or in H. destruct H as [H|H];
      [now apply before_no_failed_read in H|].
    destruct (Hr H) as [_ (t' & run' & E)]. discriminate.
Qed.

Lemma finish_write_failure reads writes run fd buf e :
  e <> EINTR ->
  In (Ewrite fd buf (Failed e))
     (fst (finish before sfd r_close (rounds reads writes run))) ->
  exists t,
    finish before sfd r_close (rounds reads writes run)
    = (t ++ [Ewrite sfd buf (Failed e); Eerror "write" e]
         ++ closing sfd r_close ++ farewell r_close,
       Exit (final_status r_close)).
Proof.
  intros He H.
  pose proof (rounds_write_failure P frame_of answer msgid sfd
                reads writes run fd buf e He) as Hr.
  destruct (rounds reads writes run) as [t [x|how]]; cbn [finish fst snd] in *.
  - apply in_app_or in H. destruct H as [H|H];
      [now apply before_no_failed_write in H|].
    apply in_app_or in H. destruct H as [H|H].
    + destruct (Hr H) as [_ (t' & run' & E)]. injection E as -> _.
      exists (before ++ t'). now rewrite <- !app_assoc.
    + destruct r_close as [[]|e']; in_cases H.
  - apply in_app_or in H. destruct H as [H|H];
      [now apply before_no_failed_write in H|].
    destruct (Hr H) as [_ (t' & run' & E)]. discriminate.
Qed.

Lemma finish_closes_after_failure reads writes run e :
  e <> EINTR ->
  closes_after_failure (finish before sfd r_close (rounds reads writes run))
                       sfd r_close e.
Proof.
  intros He. split.
  - intros fd. now apply finish_read_failure.
  - intros fd buf. now apply finish_write_failure.
Qed.

End FINISH.

(** ** Properties of the sessions *)

Lemma transform_value msgid (f : can_frame) :
  (Z.to_nat (len f) <= List.length (data f))%nat ->
  Mem.value (transform msgid f)
  = Some (mk_frame msgid (len f)
            (map_range inc 0 (Z.to_nat (len f)) (data f))).
Proof.
  intros H. unfold transform.
  now rewrite increment_payload_in_bounds by exact H.
Qed.

Lemma print_can_frame_value (f : can_frame) :
  (Z.to_nat (len f) <= List.length (data f))%nat ->
  exists rx, Mem.value (print_can_frame f) = Some rx.
Proof.
  intros H. rewrite print_can_frame_in_bounds by exact H.
  eexists. reflexivity.
Qed.

(** The round in which the write is interrupted, for both loops. *)
Lemma interrupted_round {P} frame_of answer msgid sfd
    (r : reply P) reads (w : reply unit) writes p :
  ret r = Done p -> ret w = Failed EINTR ->
  (Z.to_nat (len (frame_of p)) <= List.length (data (frame_of p)))%nat ->
  exists rx frame,
    Mem.value (print_can_frame (frame_of p)) = Some rx /\
    Mem.value (transform msgid (frame_of p)) = Some frame /\
    rounds frame_of answer msgid sfd (r :: reads) (w :: writes) true
    = after [Eread sfd (Done p); Estdout "RX:  "; Estdout rx; Estdout nl;
             Ewrite sfd (answer p frame) (Failed EINTR)]
        (rounds frame_of answer msgid sfd reads writes
                (negb (signalled r) && negb (signalled w))).
Proof.
  intros Hr Hw Hb. destruct (print_can_frame_value _ Hb) as [rx Hrx].
  exists rx. eexists. split; [exact Hrx|].
  split; [apply transform_value, Hb|].
  cbn [rounds]. unfold round.
  rewrite Hr, Hrx, (transform_value _ _ Hb), Hw. reflexivity.
Qed.

(** C1, amended. In both echo loops a write of the transformed frame that
    returns [EINTR] is not a failure, and is not issued again: the round
    ends with it, with no diagnostic and no TX line, and the loop goes on
    from its condition with the replies that are left; with the flag
    cleared the loop is over at once, and otherwise the next call is a
    read. In no run does a write follow a write. *)
Theorem interrupted_write_ends_round
    sfd (r : reply can_frame) (rb : reply BcmDemo.can_msg) reads readsb
    (w : reply unit) writes f m :
  ret r = Done f -> ret rb = Done m -> ret w = Failed EINTR ->
  wf_frame f -> len f <= 8 ->
  wf_frame (BcmDemo.frames m) -> len (BcmDemo.frames m) <= 8 ->
  (exists rx frame,
     Mem.value (print_can_frame f) = Some rx /\
     Mem.value (transform RawDemo.MSGID f) = Some frame /\
     RawDemo.loop sfd (r :: reads) (w :: writes) true
     = after [Eread sfd (Done f); Estdout "RX:  "; Estdout rx; Estdout nl;
              Ewrite sfd frame (Failed EINTR)]
         (RawDemo.loop sfd reads writes
                   (negb (signalled r) && negb (signalled w)))) /\
  (exists rx frame,
     Mem.value (print_can_frame (BcmDemo.frames m)) = Some rx /\
     Mem.value (transform BcmDemo.MSGID (BcmDemo.frames m)) = Some frame /\
     BcmDemo.loop sfd (rb :: readsb) (w :: writes) true
     = after [Eread sfd (Done m); Estdout "RX:  "; Estdout rx; Estdout nl;
              Ewrite sfd (bcm_answer m frame) (Failed EINTR)]
         (BcmDemo.loop sfd readsb writes
                   (negb (signalled rb) && negb (signalled w)))) /\
  RawDemo.loop sfd reads writes false = ([], inl (tt, false)) /\
  BcmDemo.loop sfd readsb writes false = ([], inl (tt, false)) /\
  (forall rs ws run,
     reads_lead (io_of (fst (RawDemo.loop sfd rs ws run))) = true) /\
  (forall rs ws run,
     reads_lead (io_of (fst (BcmDemo.loop sfd rs ws run))) = true).
Proof.
  intros Hr Hrb Hw Hwf Hlen Hwfb Hlenb.
  repeat split.
  - rewrite !raw_loop_rounds.
    apply (interrupted_round (fun f => f) (fun _ f => f));
      auto using wf_in_bounds.
  - rewrite !bcm_loop_rounds.
    apply (interrupted_round BcmDemo.frames bcm_answer);
      auto using wf_in_bounds.
  - rewrite raw_loop_rounds. apply rounds_stopped.
  - rewrite bcm_loop_rounds. apply rounds_stopped.
  - intros rs ws run. rewrite raw_loop_rounds. apply rounds_reads_lead.
  - intros rs ws run. rewrite bcm_loop_rounds. apply rounds_reads_lead.
Qed.

Lemma interrupted_write_ends_round_witness :
  exists rx frame,
    Mem.value (print_can_frame sample_frame) = Some rx /\
    Mem.value (transform RawDemo.MSGID sample_frame) = Some frame /\
    RawDemo.loop 3 [ok sample_frame] [interrupted] true
    = after [Eread 3 (Done sample_frame); Estdout "RX:  "; Estdout rx;
             Estdout nl; Ewrite 3 frame (Failed EINTR)]
        (RawDemo.loop 3 [] [] (negb false && negb true)).
Proof.
  destruct (interrupted_write_ends_round 3 (ok sample_frame)
              (ok (rx_changed sample_frame)) [] [] interrupted []
              sample_frame (rx_changed sample_frame)
              eq_refl eq_refl eq_refl
              sample_frame_wf ltac:(cbn; lia)
              sample_frame_wf ltac:(cbn; lia)) as [H _].
  exact H.
Defined.

(** C1 as stated fails: when SIGINT interrupts the write of the answer to
    the frame 0x456, the raw session ends with a success status and the
    answer is never written again. *)
Lemma interrupted_write_is_abandoned :
  ~ write_retried (fst (exec (RawDemo.main "can0" world_sigint_in_write))) /\
  snd (exec (RawDemo.main "can0" world_sigint_in_write)) = Exit EXIT_SUCCESS.
Proof.
  split; [|reflexivity].
  intros H.
  destruct (H [Esocket CAN_RAW (Done 3); Eioctl 3 "can0" (Done 7);
               Ebind 3 7 (Done tt); Eread 3 (Done sample_frame);
               Estdout "RX:  "; Estdout "456  [2]  10 20"; Estdout nl]
              3 (mk_frame 0x0CC 2 [0x11; 0x21; 0; 0; 0; 0; 0; 0])
              (closing 3 (Done tt) ++ farewell (Done tt)) eq_refl)
    as [r Hin].
  in_cases Hin.
Qed.

(** C2, amended. In an established raw or filtered-echo session a read or
    write of the loop that fails with an error other than [EINTR] is
    followed by the diagnostic that names the call and the error, and the
    loop is left for [cleanup]; the process then ends as after a shutdown
    on request, with the farewell and a SUCCESS status when [close]
    succeeds, and with a failure status only when [close] fails too. *)
Theorem io_failure_closes_session
    iface (w : world can_frame) (wb : world BcmDemo.can_msg)
    sfd ifindex sfdb ifindexb e :
  e <> EINTR ->
  established w sfd ifindex ->
  established wb sfdb ifindexb -> subscribed wb ->
  closes_after_failure (exec (RawDemo.main iface w)) sfd (w_close w) e /\
  closes_after_failure (exec (BcmDemo.main iface wb)) sfdb (w_close wb) e.
Proof.
  intros He Hw Hwb (w0 & writes & Hws & Hw0). split.
  - rewrite (raw_main_run iface w sfd ifindex Hw).
    apply finish_closes_after_failure; [| |exact He].
    + intros fd e' H. in_cases H.
    + intros fd buf e' H. in_cases H.
  - rewrite (bcm_main_run iface wb sfdb ifindexb w0 writes Hwb Hws Hw0).
    apply finish_closes_after_failure; [| |exact He].
    + intros fd e' H. in_cases H.
    + intros fd buf e' H. in_cases H.
Qed.

Lemma io_failure_closes_session_witness :
  (In (Eread 3 (Failed EIO)) (fst (exec (RawDemo.main "can0" world_read_error))) /\
   closes_after_failure (exec (RawDemo.main "can0" world_read_error))
                        3 (Done tt) EIO) /\
  ((exists buf, In (Ewrite 4 buf (Failed EIO))
                   (fst (exec (BcmDemo.main "can0" bcm_world_write_error)))) /\
   closes_after_failure (exec (BcmDemo.main "can0" bcm_world_write_error))
                        4 (Failed EIO) EIO).
Proof.
  assert (He : EIO <> EINTR) by discriminate.
  assert (Hw : established world_read_error 3 7) by (repeat split).
  assert (Hwb : established bcm_world_write_error 4 7) by (repeat split).
  assert (Hs : subscribed bcm_world_write_error).
  { exists (ok tt), [mk_reply false (Failed EIO)]. split; reflexivity. }
  destruct (io_failure_closes_session "can0" world_read_error
              bcm_world_write_error 3 7 4 7 EIO He Hw Hwb Hs) as [H1 H2].
  split; split; try assumption.
  - in_list.
  - eexists. cbn. do 8 right. left. reflexivity.
Defined.

(** C2 as stated fails: when the first read of the raw session fails with
    [EIO], the process reports it, closes the socket and returns
    EXIT_SUCCESS. *)
Lemma io_failure_exits_with_success :
  ~ fails_on_io_error (exec (RawDemo.main "can0" world_read_error)) /\
  exec (RawDemo.main "can0" world_read_error)
  = ([Esocket CAN_RAW (Done 3); Eioctl 3 "can0" (Done 7); Ebind 3 7 (Done tt);
      Eread 3 (Failed EIO); Eerror "read" EIO;
      Esigprocmask_block (Only [SIGINT; SIGTERM]); Eclose 3 (Done tt);
      Estdout ("Goodbye!" ++ nl)%string],
     Exit EXIT_SUCCESS).
Proof.
  split; [|reflexivity].
  intros H. specialize (H 3 EIO). 
  assert (E : snd (exec (RawDemo.main "can0" world_read_error))
              = Exit EXIT_FAILURE).
  { apply H; [discriminate|]. left. in_list. }
  discriminate E.
Qed.

(** C3. In the raw session the round that reads the frame with identifier
    0x456, length 2 and payload 10 20 displays "RX:  456  [2]  10 20",
    transforms the frame to identifier 0x0CC, length 2, payload 11 21, and
    displays "TX:  0CC  [2]  11 21" around the transmission of that
    frame: the write of the transformed frame and its TX line are next to
    each other in the run, the line right after the write that succeeded.
    The six bytes after the payload are left as they were. *)
Theorem raw_echo_round_456
    sfd d2 d3 d4 d5 d6 d7 s s' (reads : list (reply can_frame))
    (writes : list (reply unit)) :
  RawDemo.loop sfd (mk_reply s (Done (frame_456 d2 d3 d4 d5 d6 d7)) :: reads)
               (mk_reply s' (Done tt) :: writes) true
  = after [Eread sfd (Done (frame_456 d2 d3 d4 d5 d6 d7));
           Estdout "RX:  "; Estdout "456  [2]  10 20"; Estdout nl;
           Ewrite sfd (mk_frame 0x0CC 2 [0x11; 0x21; d2; d3; d4; d5; d6; d7])
                  (Done tt);
           Estdout "TX:  "; Estdout "0CC  [2]  11 21"; Estdout nl]
      (RawDemo.loop sfd reads writes (negb s && negb s')).
Proof. rewrite !raw_loop_rounds. reflexivity. Qed.

(** The order within the round, in the run that echoes the frame 0x456
    once: the line of the transformed frame comes after the write, and
    not before it. *)
Lemma tx_line_follows_the_write :
  precedes (is_stdout "0CC  [2]  11 21") is_write
           (fst (exec (RawDemo.main "can0" world_echo_once))) = false /\
  precedes is_write (is_stdout "0CC  [2]  11 21")
           (fst (exec (RawDemo.main "can0" world_echo_once))) = true.
Proof. split; vm_compute; reflexivity. Qed.

(** ** The cyclic task *)

(** C4. Once its socket is connected, a run of the cyclic demo puts one
    thing on the socket: the write of one [TX_SETUP] command whose flags
    are [SETTIMER | STARTTIMER], whose interval is 1 s 200000 us, and
    which carries 4 frames, the frame [i] with identifier 0x0C0 + i,
    length 3 and payload [i, i, i]. Whatever the write returns and
    however the run goes on, there is no read and no other write. *)
Theorem cyclic_registration
    iface s1 sfd s2 ifindex s3 (r_write : reply unit) wakeup r_close :
  let w := CyclicDemo.mk_world (mk_reply s1 (Done sfd)) (mk_reply s2 (Done ifindex))
                           (mk_reply s3 (Done tt)) r_write wakeup r_close in
  io_of (fst (exec (CyclicDemo.main iface w))) = [Wr CyclicDemo.tx_setup_msg] /\
  CyclicDemo.msg_head CyclicDemo.tx_setup_msg
  = bcm.mk_head bcm.TX_SETUP (Z.lor bcm.SETTIMER bcm.STARTTIMER) 0
      (bcm.mk_timeval 0 0) (bcm.mk_timeval 1 200000) 0 4 /\
  Z.land (bcm.flags (CyclicDemo.msg_head CyclicDemo.tx_setup_msg))
         bcm.SETTIMER = bcm.SETTIMER /\
  Z.land (bcm.flags (CyclicDemo.msg_head CyclicDemo.tx_setup_msg))
         bcm.STARTTIMER = bcm.STARTTIMER /\
  CyclicDemo.frames CyclicDemo.tx_setup_msg
  = [mk_frame 0x0C0 3 [0; 0; 0; 0; 0; 0; 0; 0];
     mk_frame 0x0C1 3 [1; 1; 1; 0; 0; 0; 0; 0];
     mk_frame 0x0C2 3 [2; 2; 2; 0; 0; 0; 0; 0];
     mk_frame 0x0C3 3 [3; 3; 3; 0; 0; 0; 0; 0]] /\
  (forall i f,
     nth_error (CyclicDemo.frames CyclicDemo.tx_setup_msg) i = Some f ->
     can_id f = 0x0C0 + Z.of_nat i /\ len f = 3 /\
     firstn 3 (data f) = [Z.of_nat i; Z.of_nat i; Z.of_nat i]).
Proof.
  intros w. subst w. repeat split.
  - destruct r_write as [sw [[]|e]], wakeup, r_close as [[]|e']; reflexivity.
  - do 4 (destruct i as [|i]; [injection H as <-; reflexivity|]).
    now destruct i.
  - do 4 (destruct i as [|i]; [injection H as <-; reflexivity|]).
    now destruct i.
  - do 4 (destruct i as [|i]; [injection H as <-; reflexivity|]).
    now destruct i.
Qed.

(** ** Shutdown *)

(** C7. A run of an established raw or filtered-echo session that comes to
    its end, the loop having been left on the flag or on an I/O error,
    calls [close] exactly once, on the socket of the session, and SIGINT
    and SIGTERM are blocked right before that call. *)
Theorem close_exactly_once
    iface (w : world can_frame) (wb : world BcmDemo.can_msg)
    sfd ifindex sfdb ifindexb :
  established w sfd ifindex ->
  established wb sfdb ifindexb -> subscribed wb ->
  (terminated (exec (RawDemo.main iface w)) ->
   closed_once (exec (RawDemo.main iface w)) sfd) /\
  (terminated (exec (BcmDemo.main iface wb)) ->
   closed_once (exec (BcmDemo.main iface wb)) sfdb).
Proof.
  intros Hw Hwb (w0 & writes & Hws & Hw0). split.
  - rewrite (raw_main_run iface w sfd ifindex Hw).
    now apply finish_closed_once.
  - rewrite (bcm_main_run iface wb sfdb ifindexb w0 writes Hwb Hws Hw0).
    now apply finish_closed_once.
Qed.

Lemma close_exactly_once_witness :
  closed_once (exec (RawDemo.main "can0" world_echo_once)) 3 /\
  closed_once (exec (BcmDemo.main "can0" bcm_world_write_error)) 4.
Proof.
  assert (Hw : established world_echo_once 3 7) by (repeat split).
  assert (Hwb : established bcm_world_write_error 4 7) by (repeat split).
  assert (Hs : subscribed bcm_world_write_error).
  { exists (ok tt), [mk_reply false (Failed EIO)]. split; reflexivity. }
  destruct (close_exactly_once "can0" world_echo_once bcm_world_write_error
              3 7 4 7 Hw Hwb Hs) as [H1 H2].
  split.
  - apply H1. exists EXIT_SUCCESS. reflexivity.
  - apply H2. exists EXIT_FAILURE. reflexivity.
Defined.

(** C8, amended. In an established raw or filtered-echo session, when
    [close] fails the diagnostic that names "close" and the error is
    produced and the process ends there and then with a FAILURE status:
    the diagnostic is the last event of the run, so the farewell is not
    printed and [main] does not return. *)
Theorem close_failure_exits
    iface (w : world can_frame) (wb : world BcmDemo.can_msg)
    sfd ifindex sfdb ifindexb :
  established w sfd ifindex ->
  established wb sfdb ifindexb -> subscribed wb ->
  (forall fd e,
     In (Eclose fd (Failed e)) (fst (exec (RawDemo.main iface w))) ->
     exists pre,
       exec (RawDemo.main iface w)
       = (pre ++ [Eclose sfd (Failed e); Eerror "close" e],
          Exit EXIT_FAILURE)) /\
  (forall fd e,
     In (Eclose fd (Failed e)) (fst (exec (BcmDemo.main iface wb))) ->
     exists pre,
       exec (BcmDemo.main iface wb)
       = (pre ++ [Eclose sfdb (Failed e); Eerror "close" e],
          Exit EXIT_FAILURE)).
Proof.
  intros Hw Hwb (w0 & writes & Hws & Hw0). split; intros fd e.
  - rewrite (raw_main_run iface w sfd ifindex Hw). intros H.
    apply finish_close_failure in H; [|reflexivity].
    now destruct H as (_ & _ & H).
  - rewrite (bcm_main_run iface wb sfdb ifindexb w0 writes Hwb Hws Hw0).
    intros H. apply finish_close_failure in H; [|reflexivity].
    now destruct H as (_ & _ & H).
Qed.

Lemma close_failure_exits_witness :
  In (Eclose 3 (Failed EIO)) (fst (exec (RawDemo.main "can0" world_close_error)))
  /\
  (exists pre,
     exec (RawDemo.main "can0" world_close_error)
     = (pre ++ [Eclose 3 (Failed EIO); Eerror "close" EIO],
        Exit EXIT_FAILURE)) /\
  (exists pre,
     exec (BcmDemo.main "can0" bcm_world_write_error)
     = (pre ++ [Eclose 4 (Failed EIO); Eerror "close" EIO],
        Exit EXIT_FAILURE)).
Proof.
  assert (Hw : established world_close_error 3 7) by (repeat split).
  assert (Hwb : established bcm_world_write_error 4 7) by (repeat split).
  assert (Hs : subscribed bcm_world_write_error).
  { exists (ok tt), [mk_reply false (Failed EIO)]. split; reflexivity. }
  destruct (close_failure_exits "can0" world_close_error
              bcm_world_write_error 3 7 4 7 Hw Hwb Hs) as [H1 H2].
  assert (Hin : In (Eclose 3 (Failed EIO))
                   (fst (exec (RawDemo.main "can0" world_close_error)))).
  { in_list. }
  split; [exact Hin|]. split.
  - apply (H1 3 EIO Hin).
  - apply (H2 4 EIO). in_list.
Defined.

(** C8 as stated fails: when [close] fails with [EIO] at the end of a raw
    session, the run ends with the diagnostic and EXIT_FAILURE; the
    farewell is not printed and no success status is returned. *)
Lemma close_failure_skips_farewell :
  ~ completes_shutdown (exec (RawDemo.main "can0" world_close_error)) /\
  exec (RawDemo.main "can0" world_close_error)
  = ([Esocket CAN_RAW (Done 3); Eioctl 3 "can0" (Done 7); Ebind 3 7 (Done tt);
      Eread 3 (Failed EINTR);
      Esigprocmask_block (Only [SIGINT; SIGTERM]); Eclose 3 (Failed EIO);
      Eerror "close" EIO],
     Exit EXIT_FAILURE).
Proof.
  split; [|reflexivity].
  intros H. destruct (H 3 EIO) as (_ & _ & E).
  - in_list.
  - discriminate E.
Qed.

(** ** The subscription of the broadcast-manager demo *)

Lemma bcm_main_refused iface (w : world BcmDemo.can_msg) sfd ifindex w0 writes e :
  established w sfd ifindex ->
  w_writes w = w0 :: writes -> ret w0 = Failed e ->
  exec (BcmDemo.main iface w)
  = (setup_events CAN_BCM iface sfd ifindex
       ++ [Ewrite sfd BcmDemo.rx_setup_msg (Failed e); Eerror "write" e],
     Exit EXIT_FAILURE).
Proof.
  intros H Hw H0. unfold exec, BcmDemo.main.
  rewrite (pbind_run _ _ _ _ _ _ (init_socket_established _ iface w _ _ H)).
  rewrite Hw. destruct w0 as [s0 r0]. cbn [ret signalled] in *. subst r0.
  reflexivity.
Qed.

Lemma transform_can_id msgid (f frame : can_frame) :
  Mem.value (transform msgid f) = Some frame -> can_id frame = msgid.
Proof.
  unfold transform, increment_payload, Mem.bind.
  destruct (Mem.value (increment_bytes _ _ _)); cbn; [|discriminate].
  now intros [= <-].
Qed.

Lemma io_of_finish {P} (before : list (event P)) sfd r_close l :
  io_of (fst (finish before sfd r_close l)) = io_of before ++ io_of (fst l).
Proof.
  destruct l as [t [x|e]]; cbn [finish fst]; rewrite !io_of_app;
    [|reflexivity].
  destruct r_close as [[]|e]; cbn; now rewrite app_nil_r.
Qed.

Lemma tx_send_no_rx_setup msgid (l : list (io BcmDemo.can_msg)) :
  Forall (tx_send msgid) l -> rx_setups l = O.
Proof.
  induction 1 as [|x l Hx _ IH]; [reflexivity|].
  destruct x as [|m]; cbn [rx_setups]; [exact IH|].
  destruct Hx as (-> & _). exact IH.
Qed.

(** ** Sample runs *)

Example raw_run_echo_once :
  exec (RawDemo.main "can0" world_echo_once)
  = ([Esocket CAN_RAW (Done 3); Eioctl 3 "can0" (Done 7); Ebind 3 7 (Done tt);
      Eread 3 (Done sample_frame);
      Estdout "RX:  "; Estdout "456  [2]  10 20"; Estdout nl;
      Ewrite 3 (mk_frame 0x0CC 2 [0x11; 0x21; 0; 0; 0; 0; 0; 0]) (Done tt);
      Estdout "TX:  "; Estdout "0CC  [2]  11 21"; Estdout nl;
      Eread 3 (Failed EINTR);
      Esigprocmask_block (Only [SIGINT; SIGTERM]); Eclose 3 (Done tt);
      Estdout ("Goodbye!" ++ nl)%string],
     Exit EXIT_SUCCESS).
Proof. reflexivity. Qed.

Example raw_run_sigint_in_write :
  exec (RawDemo.main "can0" world_sigint_in_write)
  = ([Esocket CAN_RAW (Done 3); Eioctl 3 "can0" (Done 7); Ebind 3 7 (Done tt);
      Eread 3 (Done sample_frame);
      Estdout "RX:  "; Estdout "456  [2]  10 20"; Estdout nl;
      Ewrite 3 (mk_frame 0x0CC 2 [0x11; 0x21; 0; 0; 0; 0; 0; 0])
             (Failed EINTR);
      Esigprocmask_block (Only [SIGINT; SIGTERM]); Eclose 3 (Done tt);
      Estdout ("Goodbye!" ++ nl)%string],
     Exit EXIT_SUCCESS).
Proof. reflexivity. Qed.

(** An interruption that leaves the flag set: the answer to the first
    frame is dropped and the loop reads the next frame. *)
Example raw_run_interrupted_write_then_next_frame :
  io_of (fst (exec (RawDemo.main "can0"
           (mk_world (ok 3) (ok 7) (ok tt)
              [ok sample_frame; ok (mk_frame 0x321 1 (repeat 0 8)); interrupted]
              [mk_reply false (Failed EINTR); ok tt] (Done tt)))))
  = [Rd; Wr (mk_frame 0x0CC 2 [0x11; 0x21; 0; 0; 0; 0; 0; 0]);
     Rd; Wr (mk_frame 0x0CC 1 [1; 0; 0; 0; 0; 0; 0; 0]);
     Rd].
Proof. reflexivity. Qed.

Example raw_run_socket_refused :
  exec (RawDemo.main "can0"
          (mk_world (mk_reply false (Failed 1)) (ok 7) (ok tt) [] [] (Done tt)))
  = ([Esocket CAN_RAW (Failed 1); Eerror "socket" 1], Exit EXIT_FAILURE).
Proof. reflexivity. Qed.

Example bcm_run_write_error :
  snd (exec (BcmDemo.main "can0" bcm_world_write_error)) = Exit EXIT_FAILURE /\
  io_of (fst (exec (BcmDemo.main "can0" bcm_world_write_error)))
  = [Wr BcmDemo.rx_setup_msg; Rd;
     Wr (BcmDemo.mk_msg
           (bcm.mk_head bcm.TX_SEND 0 0 (bcm.mk_timeval 0 0)
                        (bcm.mk_timeval 0 0) 0 1)
           (mk_frame 0x0BC 2 [0x11; 0x21; 0; 0; 0; 0; 0; 0]))].
Proof. split; reflexivity. Qed.

Example cyclic_run_until_sigint :
  exec (CyclicDemo.main "can0"
          (CyclicDemo.mk_world (ok 3) (ok 7) (ok tt) (ok tt) true (Done tt)))
  = ([Esocket CAN_BCM (Done 3); Eioctl 3 "can0" (Done 7);
      Econnect 3 7 (Done tt);
      Ewrite 3 CyclicDemo.tx_setup_msg (Done tt);
      Estdout (CyclicDemo.registered_text "can0");
      Esigsuspend (AllBut [SIGINT; SIGTERM]);
      Esigprocmask_block (Only [SIGINT; SIGTERM]); Eclose 3 (Done tt);
      Estdout ("Goodbye!" ++ nl)%string],
     Exit EXIT_SUCCESS).
Proof. reflexivity. Qed.

Example cyclic_run_never_signalled :
  snd (exec (CyclicDemo.main "can0"
          (CyclicDemo.mk_world (ok 3) (ok 7) (ok tt) (ok tt) false (Done tt))))
  = Hang.
Proof. reflexivity. Qed.

(** * Further properties of the code *)

(** ** The codec *)

Lemma print_can_frame_line (f : can_frame) :
  fits f ->
  print_can_frame f = Mem.mk (seq 0 (Z.to_nat (len f))) (Some (frame_line f)).
Proof. intros H. now rewrite print_can_frame_in_bounds by exact H. Qed.

(** X1. The text of a frame that fits depends on its identifier, its
    length and its first [len] bytes only: what lies in [data] after the
    payload is never printed (nor read). *)
Theorem print_can_frame_ignores_tail (f g : can_frame) :
  fits f -> fits g ->
  can_id f = can_id g -> len f = len g ->
  firstn (Z.to_nat (len f)) (data f) = firstn (Z.to_nat (len f)) (data g) ->
  print_can_frame f = print_can_frame g.
Proof.
  intros Hf Hg Hid Hlen Hdata.
  rewrite !print_can_frame_line by assumption.
  unfold frame_line. now rewrite <- Hid, <- Hlen, Hdata.
Qed.

Lemma print_can_frame_ignores_tail_witness :
  print_can_frame (frame_456 0 0 0 0 0 0)
  = print_can_frame (frame_456 1 2 3 4 5 6).
Proof.
  apply print_can_frame_ignores_tail; try reflexivity;
    unfold fits; cbn; lia.
Defined.

Lemma iter_inc_byte (k : nat) (b : Z) :
  is_byte b -> Nat.iter k inc b = (b + Z.of_nat k) mod 256.
Proof.
  intros Hb. destruct (iter_inc k b) as [H| ->]; [exact H|].
  cbn. rewrite Z.add_0_r. symmetry. now apply Z.mod_small.
Qed.

(** X2. On a well-formed frame with length <= 8, [k] rounds of the
    increment loop add [k] modulo 256 to each of the first [len] bytes and
    leave identifier, length and the other bytes alone: the loop composes
    as addition modulo 256. *)
Theorem increment_payload_repeated (f : can_frame) (k : nat) :
  wf_frame f -> len f <= 8 ->
  exists g,
    Mem.value (repeated k increment_payload f) = Some g /\
    can_id g = can_id f /\ len g = len f /\
    forall j,
      nth_error (data g) j
      = if (j <? Z.to_nat (len f))%nat
        then option_map (fun b => (b + Z.of_nat k) mod 256)
                        (nth_error (data f) j)
        else nth_error (data f) j.
Proof.
  intros Hwf Hlen. pose proof (wf_in_bounds f Hwf Hlen) as Hb.
  rewrite repeated_increment_payload by exact Hb.
  eexists. split; [reflexivity|]. cbn [can_id len data].
  repeat split. intros j.
  rewrite (map_range_ext (Nat.iter k inc)
             (fun b => (b + Z.of_nat k) mod 256)).
  - apply map_range_nth_error.
  - eapply Forall_impl; [|apply Hwf]. intros b. apply iter_inc_byte.
Qed.

Lemma increment_payload_repeated_witness :
  exists g,
    Mem.value (repeated 300 increment_payload sample_frame) = Some g /\
    can_id g = can_id sample_frame /\ len g = len sample_frame /\
    forall j,
      nth_error (data g) j
      = if (j <? Z.to_nat (len sample_frame))%nat
        then option_map (fun b => (b + Z.of_nat 300) mod 256)
                        (nth_error (data sample_frame) j)
        else nth_error (data sample_frame) j.
Proof.
  apply (increment_payload_repeated sample_frame 300 sample_frame_wf).
  cbn. lia.
Defined.

(** What [transform] yields, and when. *)
Lemma transform_inv msgid (f frame : can_frame) :
  Mem.value (transform msgid f) = Some frame ->
  fits f /\ frame = echoed msgid f.
Proof.
  intros H. unfold fits.
  destruct (le_gt_dec (Z.to_nat (len f)) (List.length (data f))) as [Hb|Hb].
  - rewrite transform_value in H by exact Hb. injection H as <-. now split.
  - unfold transform, increment_payload in H. cbn [len data] in H.
    destruct (increment_bytes_overrun (Z.to_nat (len f)) (data f) 0)
      as [Hv _]; [lia|].
    rewrite (bind_value_none _ _ Hv) in H. discriminate.
Qed.

Lemma echoed_fits msgid (f : can_frame) : fits f -> fits (echoed msgid f).
Proof. unfold fits, echoed. cbn. now rewrite map_range_length. Qed.

(** ** The echo loops, round by round *)

Section ECHOES.

Variable P : Type.
Variable frame_of : P -> can_frame.
Variable answer : P -> can_frame -> P.
Variable msgid : Z.
Variable sfd : Z.

Local Abbreviation round := (round frame_of answer msgid sfd).
Local Abbreviation rounds := (rounds frame_of answer msgid sfd).

(** The round of a frame that fits, up to the write. *)
Lemma round_of_fitting_frame s p writes :
  fits (frame_of p) ->
  round (mk_reply s (Done p)) writes
  = let t2 := [Eread sfd (Done p); Estdout "RX:  ";
               Estdout (frame_line (frame_of p)); Estdout nl] in
    match writes with
    | [] => (t2, negb s, Stop Hang)
    | w :: writes' =>
        let buf := answer p (echoed msgid (frame_of p)) in
        let run2 := negb s && negb (signalled w) in
        match ret w with
        | Failed e =>
            if e =? EINTR
            then (t2 ++ [Ewrite sfd buf (Failed e)], run2, Again writes')
            else (t2 ++ [Ewrite sfd buf (Failed e); Eerror "write" e],
                  run2, Leave)
        | Done u =>
            (t2 ++ [Ewrite sfd buf (Done u); Estdout "TX:  ";
                    Estdout (frame_line (echoed msgid (frame_of p)));
                    Estdout nl],
             run2, Again writes')
        end
    end.
Proof.
  intros Hf. unfold round. cbn [ret signalled].
  rewrite (print_can_frame_line _ Hf).
  rewrite (transform_value msgid _ Hf). fold (echoed msgid (frame_of p)).
  rewrite (print_can_frame_line _ (echoed_fits msgid _ Hf)).
  cbn [Mem.value]. destruct writes as [|[s' [u|e]] writes']; reflexivity.
Qed.

Lemma round_no_fault r writes t run' :
  match ret r with Done p => fits (frame_of p) | Failed _ => True end ->
  round r writes <> (t, run', Stop Fault).
Proof.
  destruct r as [s [p|e]]; cbn [ret]; intros Hf.
  - rewrite (round_of_fitting_frame s p writes Hf). cbv zeta.
    destruct writes as [|[s' [u|e]] writes']; cbn [ret signalled];
      try discriminate.
    destruct (e =? EINTR); discriminate.
  - unfold round. cbn [ret]. destruct (e =? EINTR); discriminate.
Qed.

Lemma rounds_no_fault reads : forall writes run,
  every_frame_fits frame_of reads ->
  snd (rounds reads writes run) <> inr Fault.
Proof.
  induction reads as [|r reads IH]; intros writes [|] Hf; cbn [rounds snd];
    try discriminate.
  inversion Hf as [|r' reads' Hr Hrest]; subst.
  pose proof (round_no_fault r writes) as Hn.
  destruct (round r writes) as [[t run'] [ws| |e]]; cbn [after snd].
  - now apply IH.
  - discriminate.
  - intros [= ->]. now apply (Hn t run').
Qed.

(** A round that a shutdown signal reaches leaves the flag cleared. *)
Lemma round_signalled r writes :
  signalled r = true -> snd (fst (round r writes)) = false.
Proof.
  intros Hs. unfold round. rewrite Hs. cbn [negb andb].
  destruct (ret r) as [p|e].
  - destruct (Mem.value (print_can_frame (frame_of p))); [|reflexivity].
    destruct (Mem.value (transform msgid (frame_of p))); [|reflexivity].
    destruct writes as [|w writes']; [reflexivity|].
    destruct (ret w) as [u|e].
    + now destruct (Mem.value (print_can_frame c)).
    + now destruct (e =? EINTR).
  - now destruct (e =? EINTR).
Qed.

Lemma rounds_after_signal pre : forall r post writes run,
  signalled r = true ->
  rounds (pre ++ r :: post) writes run = rounds (pre ++ [r]) writes run.
Proof.
  induction pre as [|a pre IH]; intros r post writes [|] Hs;
    try reflexivity; cbn [app rounds].
  - pose proof (round_signalled r writes Hs) as Hr.
    destruct (round r writes) as [[t run'] [ws| |e]]; try reflexivity.
    cbn [fst snd] in Hr. subst run'. now rewrite !rounds_stopped.
  - destruct (round a writes) as [[t run'] [ws| |e]]; try reflexivity.
    now rewrite (IH r post ws run' Hs).
Qed.

Lemma without_eintr_reads_app (t1 t2 : list (event P)) :
  without_eintr_reads (t1 ++ t2)
  = without_eintr_reads t1 ++ without_eintr_reads t2.
Proof. apply filter_app. Qed.

Lemma round_spurious r writes :
  spurious r = true ->
  exists e, round r writes = ([Eread sfd (Failed e)], true, Again writes) /\
            (e =? EINTR) = true.
Proof.
  unfold spurious, round. destruct r as [s [p|e]]; cbn [ret signalled];
    intros H; apply andb_prop in H; destruct H as [Hs He];
    [discriminate|].
  exists e. rewrite He. destruct s; [discriminate|]. now split.
Qed.

Lemma rounds_skip_spurious reads : forall writes run,
  without_eintr_reads (fst (rounds reads writes run))
  = without_eintr_reads
      (fst (rounds (filter (fun r => negb (spurious r)) reads) writes run))
  /\ snd (rounds reads writes run)
     = snd (rounds (filter (fun r => negb (spurious r)) reads) writes run).
Proof.
  induction reads as [|r reads IH]; intros writes [|];
    try (split; reflexivity).
  - cbn [filter]. destruct (spurious r) eqn:Es; cbn [negb].
    + destruct (round_spurious r writes Es) as (e & Er & He).
      cbn [rounds]. rewrite Er. cbn [after fst snd app].
      unfold without_eintr_reads at 1. cbn [filter is_eintr_read].
      rewrite He. cbn [negb]. apply IH.
    + cbn [rounds].
      destruct (round r writes) as [[t run'] [ws| |e]]; try (split; reflexivity).
      cbn [after fst snd]. rewrite !without_eintr_reads_app.
      destruct (IH ws run') as [H1 H2]. now rewrite H1, H2.
  - rewrite !rounds_stopped. now split.
Qed.

(** A script of [n] frames that fit, each read and written with success,
    gives [n] full rounds, and the loop goes on with what follows. *)
Lemma rounds_echo frames : forall reads writes,
  Forall (fun p => fits (frame_of p)) frames ->
  rounds (map (fun p => mk_reply false (Done p)) frames ++ reads)
         (map (fun _ => mk_reply false (Done tt)) frames ++ writes) true
  = after (flat_map (echo_round frame_of answer msgid sfd) frames)
          (rounds reads writes true).
Proof.
  induction frames as [|p frames IH]; intros reads writes Hf.
  - cbn. now destruct (rounds reads writes true).
  - inversion Hf as [|p' frames' Hp Hrest]; subst.
    cbn [map app rounds flat_map].
    rewrite (round_of_fitting_frame false p _ Hp). cbv zeta.
    cbn [ret signalled negb andb]. rewrite (IH reads writes Hrest).
    unfold after, echo_round. cbn [fst snd app]. reflexivity.
Qed.

(** Within a round the write, if any, answers the read of that round. *)
Lemma round_answers r writes :
  forall last rest,
    exists l',
      (answers last (fst (fst (round r writes)) ++ rest) = answers l' rest \/
       exists p frame,
         ret r = Done p /\
         Mem.value (transform msgid (frame_of p)) = Some frame /\
         answers last (fst (fst (round r writes)) ++ rest)
         = (Some p, answer p frame) :: answers l' rest).
Proof.
  intros last rest. unfold round.
  destruct r as [s [p|e]]; cbn [ret signalled].
  - destruct (Mem.value (print_can_frame (frame_of p))) as [rx|];
      [|eexists; left; reflexivity].
    destruct (Mem.value (transform msgid (frame_of p))) as [f'|] eqn:Ef;
      [|eexists; left; reflexivity].
    destruct writes as [|[s' [u|e]] writes']; cbn [ret signalled];
      [eexists; left; reflexivity| |].
    + destruct (Mem.value (print_can_frame f')); eexists; right;
        exists p, f'; repeat split; try exact Ef; reflexivity.
    + destruct (e =? EINTR); eexists; right;
        exists p, f'; repeat split; try exact Ef; reflexivity.
  - destruct (e =? EINTR); eexists; left; reflexivity.
Qed.

Lemma rounds_answers reads : forall writes run last rest,
  Forall (fun x => exists p, fst x = Some p /\
                     snd x = answer p (echoed msgid (frame_of p)) /\
                     fits (frame_of p))
         (answers None rest) ->
  (forall l, answers l rest = answers None rest) ->
  Forall (fun x => exists p, fst x = Some p /\
                     snd x = answer p (echoed msgid (frame_of p)) /\
                     fits (frame_of p))
         (answers last (fst (rounds reads writes run) ++ rest)).
Proof.
  induction reads as [|r reads IH]; intros writes [|] last rest Hrest Hl;
    cbn [rounds fst app]; try (now rewrite Hl).
  pose proof (round_answers r writes) as Hr.
  destruct (round r writes) as [[t run'] nx]. cbn [fst] in Hr.
  assert (Hgo : forall tail,
            (forall l, Forall (fun x => exists p, fst x = Some p /\
                     snd x = answer p (echoed msgid (frame_of p)) /\
                     fits (frame_of p)) (answers l tail)) ->
            Forall (fun x => exists p, fst x = Some p /\
                     snd x = answer p (echoed msgid (frame_of p)) /\
                     fits (frame_of p)) (answers last (t ++ tail))).
  { intros tail Htail. destruct (Hr last tail) as [l' [E|(p & f' & _ & Ef & E)]];
      rewrite E; [apply Htail|].
    constructor; [|apply Htail].
    apply transform_inv in Ef. destruct Ef as [Hfit ->].
    exists p. now repeat split. }
  destruct nx as [ws| |e]; cbn [after fst].
  - rewrite <- app_assoc. apply Hgo. intros l. now apply IH.
  - apply Hgo. intros l. now rewrite Hl.
  - apply Hgo. intros l. now rewrite Hl.
Qed.

End ECHOES.

(** ** Failures before the loop *)

Lemma pbind_halt {P A B} (m : Proc P A) (f : A -> Proc P B) run t e :
  m run = (t, inr e) -> pbind m f run = (t, inr e).
Proof. intros H. unfold pbind. now rewrite H. Qed.

Lemma init_socket_failure {P} k iface (rs ri : reply Z) (ra : reply unit) run :
  (forall sfd ifindex,
     ~ (ret rs = Done sfd /\ ret ri = Done ifindex /\ ret ra = Done tt)) ->
  exists pre op e,
    @init_socket P k iface rs ri ra run
    = (pre ++ [Eerror op e], inr (Exit EXIT_FAILURE)) /\
    In op setup_labels /\ io_of pre = [] /\ existsb is_close pre = false.
Proof.
  intros H.
  destruct rs as [s1 [fd|e1]], ri as [s2 [idx|e2]], ra as [s3 [[]|e3]];
    try (exfalso; apply (H fd idx); repeat split; reflexivity).
  all: try (exists [Esocket k (Failed e1)], "socket"%string, e1;
            repeat split; cbn; auto; fail).
  all: try (exists [Esocket k (Done fd);
                    Eioctl fd (substring 0 IFNAMSIZ iface) (Failed e2)],
                   "ioctl"%string, e2;
            repeat split; cbn; auto; fail).
  destruct k.
  - exists [Esocket CAN_RAW (Done fd);
            Eioctl fd (substring 0 IFNAMSIZ iface) (Done idx);
            Ebind fd idx (Failed e3)], "bind"%string, e3.
    repeat split; cbn; auto.
  - exists [Esocket CAN_BCM (Done fd);
            Eioctl fd (substring 0 IFNAMSIZ iface) (Done idx);
            Econnect fd idx (Failed e3)], "bind"%string, e3.
    repeat split; cbn; auto.
Qed.

Lemma dies_in_setup_intro {P} (pre : list (event P)) op e :
  In op setup_labels -> io_of pre = [] -> existsb is_close pre = false ->
  dies_in_setup (pre ++ [Eerror op e], Exit EXIT_FAILURE).
Proof.
  intros Hop Hio Hcl. unfold dies_in_setup. cbn [fst snd].
  rewrite io_of_app, Hio, existsb_app, Hcl. repeat split.
  now exists pre, op, e.
Qed.

Lemma raw_main_dies iface (w : world can_frame) :
  (forall sfd ifindex, ~ established w sfd ifindex) ->
  dies_in_setup (exec (RawDemo.main iface w)).
Proof.
  intros Hw.
  destruct (@init_socket_failure can_frame CAN_RAW iface
              (w_socket w) (w_ioctl w) (w_addr w) true Hw)
    as (pre & op & e & E & Hop & Hio & Hcl).
  unfold exec, RawDemo.main. rewrite (pbind_halt _ _ _ _ _ E).
  now apply dies_in_setup_intro.
Qed.

Lemma bcm_main_dies iface (w : world BcmDemo.can_msg) :
  (forall sfd ifindex, ~ established w sfd ifindex) ->
  dies_in_setup (exec (BcmDemo.main iface w)).
Proof.
  intros Hw.
  destruct (@init_socket_failure BcmDemo.can_msg CAN_BCM iface
              (w_socket w) (w_ioctl w) (w_addr w) true Hw)
    as (pre & op & e & E & Hop & Hio & Hcl).
  unfold exec, BcmDemo.main. rewrite (pbind_halt _ _ _ _ _ E).
  now apply dies_in_setup_intro.
Qed.

Lemma cyclic_main_dies iface (w : CyclicDemo.world) :
  (forall sfd ifindex, ~ connected w sfd ifindex) ->
  dies_in_setup (exec (CyclicDemo.main iface w)).
Proof.
  intros Hw.
  destruct (@init_socket_failure CyclicDemo.can_msg CAN_BCM iface
              (CyclicDemo.w_socket w) (CyclicDemo.w_ioctl w)
              (CyclicDemo.w_connect w) true Hw)
    as (pre & op & e & E & Hop & Hio & Hcl).
  unfold exec, CyclicDemo.main. rewrite (pbind_halt _ _ _ _ _ E).
  now apply dies_in_setup_intro.
Qed.

Lemma init_socket_failed {P} k iface (rs ri : reply Z) (ra : reply unit)
    run t :
  @failed_setup P k iface (ret rs) (ret ri) (ret ra) = Some t ->
  @init_socket P k iface rs ri ra run = (t, inr (Exit EXIT_FAILURE)).
Proof.
  destruct rs as [s1 [fd|e1]], ri as [s2 [idx|e2]], ra as [s3 [[]|e3]];
    cbn [ret failed_setup]; intros H; inversion H; subst;
    try destruct k; reflexivity.
Qed.

Lemma failed_setup_some {P} k iface (rs ri : sysret Z) (ra : sysret unit) :
  (forall sfd ifindex,
     ~ (rs = Done sfd /\ ri = Done ifindex /\ ra = Done tt)) ->
  exists t, @failed_setup P k iface rs ri ra = Some t.
Proof.
  intros H. destruct rs as [fd|e1], ri as [idx|e2], ra as [[]|e3];
    cbn [failed_setup]; try (eexists; reflexivity).
  exfalso. apply (H fd idx). repeat split.
Qed.

(** X3. When [socket], [ioctl], or [bind]/[connect] fails, each of the
    three programs ends at once with EXIT_FAILURE: its run is the calls
    of [init_socket] up to the one that failed, then one diagnostic that
    carries the error of that call and its name, "socket", "ioctl" or
    "bind" (a failing [connect] is reported as "bind" too); the calls
    after the failed one are not made, and the socket is never read,
    written or closed. *)
Theorem setup_failure_is_fatal
    iface (w : world can_frame) (wb : world BcmDemo.can_msg)
    (wc : CyclicDemo.world) :
  (forall sfd ifindex, ~ established w sfd ifindex) ->
  (forall sfd ifindex, ~ established wb sfd ifindex) ->
  (forall sfd ifindex, ~ connected wc sfd ifindex) ->
  (exists t,
     failed_setup CAN_RAW iface (ret (w_socket w)) (ret (w_ioctl w))
                  (ret (w_addr w)) = Some t /\
     exec (RawDemo.main iface w) = (t, Exit EXIT_FAILURE)) /\
  (exists t,
     failed_setup CAN_BCM iface (ret (w_socket wb)) (ret (w_ioctl wb))
                  (ret (w_addr wb)) = Some t /\
     exec (BcmDemo.main iface wb) = (t, Exit EXIT_FAILURE)) /\
  (exists t,
     failed_setup CAN_BCM iface (ret (CyclicDemo.w_socket wc))
                  (ret (CyclicDemo.w_ioctl wc))
                  (ret (CyclicDemo.w_connect wc)) = Some t /\
     exec (CyclicDemo.main iface wc) = (t, Exit EXIT_FAILURE)) /\
  dies_in_setup (exec (RawDemo.main iface w)) /\
  dies_in_setup (exec (BcmDemo.main iface wb)) /\
  dies_in_setup (exec (CyclicDemo.main iface wc)).
Proof.
  intros Hw Hwb Hwc. split; [|split; [|split; [|split; [|split]]]].
  - destruct (@failed_setup_some can_frame CAN_RAW iface _ _ _ Hw) as [t E].
    exists t. split; [exact E|].
    unfold exec, RawDemo.main.
    now rewrite (pbind_halt _ _ _ _ _ (init_socket_failed _ _ _ _ _ true _ E)).
  - destruct (@failed_setup_some BcmDemo.can_msg CAN_BCM iface _ _ _ Hwb)
      as [t E].
    exists t. split; [exact E|].
    unfold exec, BcmDemo.main.
    now rewrite (pbind_halt _ _ _ _ _ (init_socket_failed _ _ _ _ _ true _ E)).
  - destruct (@failed_setup_some CyclicDemo.can_msg CAN_BCM iface _ _ _ Hwc)
      as [t E].
    exists t. split; [exact E|].
    unfold exec, CyclicDemo.main.
    now rewrite (pbind_halt _ _ _ _ _ (init_socket_failed _ _ _ _ _ true _ E)).
  - now apply raw_main_dies.
  - now apply bcm_main_dies.
  - now apply cyclic_main_dies.
Qed.

Lemma setup_failure_is_fatal_witness :
  exec (RawDemo.main "can0"
          (mk_world (mk_reply false (Failed 1)) (ok 7) (ok tt) [] []
                    (Done tt)))
  = ([Esocket CAN_RAW (Failed 1); Eerror "socket" 1], Exit EXIT_FAILURE) /\
  exec (BcmDemo.main "can0"
          (mk_world (ok 3) (ok 7) (mk_reply false (Failed 19)) [] []
                    (Done tt)))
  = ([Esocket CAN_BCM (Done 3); Eioctl 3 "can0" (Done 7);
      Econnect 3 7 (Failed 19); Eerror "bind" 19], Exit EXIT_FAILURE) /\
  exec (CyclicDemo.main "can0"
          (CyclicDemo.mk_world (ok 3) (mk_reply false (Failed 19)) (ok tt)
                               (ok tt) true (Done tt)))
  = ([Esocket CAN_BCM (Done 3); Eioctl 3 "can0" (Failed 19);
      Eerror "ioctl" 19], Exit EXIT_FAILURE) /\
  dies_in_setup
    (exec (BcmDemo.main "can0"
             (mk_world (ok 3) (ok 7) (mk_reply false (Failed 19)) [] []
                       (Done tt)))).
Proof.
  destruct (setup_failure_is_fatal "can0"
              (mk_world (mk_reply false (Failed 1)) (ok 7) (ok tt) [] []
                        (Done tt))
              (mk_world (ok 3) (ok 7) (mk_reply false (Failed 19)) [] []
                        (Done tt))
              (CyclicDemo.mk_world (ok 3) (mk_reply false (Failed 19))
                                   (ok tt) (ok tt) true (Done tt)))
    as ((t1 & E1 & R1) & (t2 & E2 & R2) & (t3 & E3 & R3) & _ & D & _).
  - intros sfd ifindex (H & _). discriminate H.
  - intros sfd ifindex (_ & _ & H). discriminate H.
  - intros sfd ifindex (_ & H & _). discriminate H.
  - injection E1 as <-. injection E2 as <-. injection E3 as <-.
    split; [exact R1|]. split; [exact R2|]. split; [exact R3|exact D].
Defined.

Lemma cyclic_init_socket_connected iface (w : CyclicDemo.world) sfd ifindex :
  connected w sfd ifindex ->
  exists run,
    @init_socket CyclicDemo.can_msg CAN_BCM iface (CyclicDemo.w_socket w)
      (CyclicDemo.w_ioctl w) (CyclicDemo.w_connect w) true
    = (setup_events CAN_BCM iface sfd ifindex, inl (sfd, run)).
Proof.
  destruct w as [[s1 r1] [s2 r2] [s3 r3] rw wk cr].
  intros (H1 & H2 & H3). cbn in H1, H2, H3. subst r1 r2 r3.
  eexists. reflexivity.
Qed.

(** X4. The registration writes are never retried: in the
    broadcast-manager demo a failure of the [RX_SETUP] write, and in the
    cyclic demo a failure of the [TX_SETUP] write, with any error,
    [EINTR] included, ends the process with the diagnostic "write" and
    EXIT_FAILURE; nothing is read, the process does not wait, and the
    socket is not closed. *)
Theorem registration_failure_is_fatal
    iface (wb : world BcmDemo.can_msg) (wc : CyclicDemo.world)
    sfdb ifindexb w0 writes sfdc ifindexc e :
  established wb sfdb ifindexb ->
  w_writes wb = w0 :: writes -> ret w0 = Failed e ->
  connected wc sfdc ifindexc ->
  ret (CyclicDemo.w_write wc) = Failed e ->
  exec (BcmDemo.main iface wb)
  = (setup_events CAN_BCM iface sfdb ifindexb
       ++ [Ewrite sfdb BcmDemo.rx_setup_msg (Failed e); Eerror "write" e],
     Exit EXIT_FAILURE) /\
  exec (CyclicDemo.main iface wc)
  = (setup_events CAN_BCM iface sfdc ifindexc
       ++ [Ewrite sfdc CyclicDemo.tx_setup_msg (Failed e); Eerror "write" e],
     Exit EXIT_FAILURE).
Proof.
  intros Hb Hw H0 Hc Hcw. split.
  - exact (bcm_main_refused iface wb sfdb ifindexb w0 writes e Hb Hw H0).
  - destruct (cyclic_init_socket_connected iface wc sfdc ifindexc Hc)
      as [run E].
    unfold exec, CyclicDemo.main. rewrite (pbind_run _ _ _ _ _ _ E).
    destruct (CyclicDemo.w_write wc) as [sw rw]. cbn [ret] in Hcw. subst rw.
    reflexivity.
Qed.

Lemma registration_failure_is_fatal_witness :
  exec (BcmDemo.main "can0"
          (mk_world (ok 4) (ok 7) (ok tt) [] [interrupted] (Done tt)))
  = (setup_events CAN_BCM "can0" 4 7
       ++ [Ewrite 4 BcmDemo.rx_setup_msg (Failed EINTR);
           Eerror "write" EINTR],
     Exit EXIT_FAILURE) /\
  exec (CyclicDemo.main "can0"
          (CyclicDemo.mk_world (ok 3) (ok 7) (ok tt) interrupted true
                               (Done tt)))
  = (setup_events CAN_BCM "can0" 3 7
       ++ [Ewrite 3 CyclicDemo.tx_setup_msg (Failed EINTR);
           Eerror "write" EINTR],
     Exit EXIT_FAILURE).
Proof.
  apply (registration_failure_is_fatal "can0"
           (mk_world (ok 4) (ok 7) (ok tt) [] [interrupted] (Done tt))
           (CyclicDemo.mk_world (ok 3) (ok 7) (ok tt) interrupted true
                                (Done tt))
           4 7 interrupted [] 3 7 EINTR);
    repeat split.
Defined.

(** ** The cyclic demo after the registration *)

(** X6. Once the cyclic task is registered the process only waits, with
    every signal but SIGINT and SIGTERM blocked. Without such a signal it
    waits for ever and the socket stays open (the kernel goes on
    transmitting); with it, the process blocks both signals, closes the
    socket once and ends as [close] decides. *)
Theorem cyclic_waits_then_closes
    iface (w : CyclicDemo.world) sfd ifindex :
  connected w sfd ifindex ->
  ret (CyclicDemo.w_write w) = Done tt ->
  exec (CyclicDemo.main iface w)
  = if CyclicDemo.w_wakeup w
    then (setup_events CAN_BCM iface sfd ifindex
            ++ [Ewrite sfd CyclicDemo.tx_setup_msg (Done tt);
                Estdout (CyclicDemo.registered_text iface);
                Esigsuspend (AllBut [SIGINT; SIGTERM])]
            ++ closing sfd (CyclicDemo.w_close w)
            ++ farewell (CyclicDemo.w_close w),
          Exit (final_status (CyclicDemo.w_close w)))
    else (setup_events CAN_BCM iface sfd ifindex
            ++ [Ewrite sfd CyclicDemo.tx_setup_msg (Done tt);
                Estdout (CyclicDemo.registered_text iface)],
          Hang).
Proof.
  intros Hc Hw.
  destruct (cyclic_init_socket_connected iface w sfd ifindex Hc) as [run E].
  unfold exec, CyclicDemo.main. rewrite (pbind_run _ _ _ _ _ _ E).
  destruct (CyclicDemo.w_write w) as [sw rw]. cbn [ret] in Hw. subst rw.
  destruct (CyclicDemo.w_wakeup w), (CyclicDemo.w_close w) as [[]|ec];
    reflexivity.
Qed.

Lemma cyclic_waits_then_closes_witness :
  snd (exec (CyclicDemo.main "can0"
         (CyclicDemo.mk_world (ok 3) (ok 7) (ok tt) (ok tt) false (Done tt))))
  = Hang /\
  closed_once
    (exec (CyclicDemo.main "can0"
         (CyclicDemo.mk_world (ok 3) (ok 7) (ok tt) (ok tt) true (Done tt))))
    3.
Proof.
  split.
  - rewrite (cyclic_waits_then_closes "can0"
               (CyclicDemo.mk_world (ok 3) (ok 7) (ok tt) (ok tt) false
                                    (Done tt)) 3 7);
      [reflexivity | repeat split | reflexivity].
  - rewrite (cyclic_waits_then_closes "can0"
               (CyclicDemo.mk_world (ok 3) (ok 7) (ok tt) (ok tt) true
                                    (Done tt)) 3 7);
      [|repeat split | reflexivity].
    exists (setup_events CAN_BCM "can0" 3 7
              ++ [Ewrite 3 CyclicDemo.tx_setup_msg (Done tt);
                  Estdout (CyclicDemo.registered_text "can0");
                  Esigsuspend (AllBut [SIGINT; SIGTERM])]),
           (Done tt), (farewell (Done tt)).
    repeat split.
Defined.

(** ** The echo sessions as a whole *)

Lemma established_or_not {P} (w : world P) :
  (exists sfd ifindex, established w sfd ifindex) \/
  (forall sfd ifindex, ~ established w sfd ifindex).
Proof.
  destruct w as [[s1 [fd|e1]] [s2 [idx|e2]] [s3 [[]|e3]] reads writes cr];
    try (left; exists fd, idx; repeat split; fail);
    right; intros sfd ifindex (H1 & H2 & H3); cbn in *; discriminate.
Qed.

Lemma bcm_main_blocked iface (w : world BcmDemo.can_msg) sfd ifindex :
  established w sfd ifindex -> w_writes w = [] ->
  exec (BcmDemo.main iface w) = (setup_events CAN_BCM iface sfd ifindex, Hang).
Proof.
  intros H Hw. unfold exec, BcmDemo.main.
  rewrite (pbind_run _ _ _ _ _ _ (init_socket_established _ iface w _ _ H)).
  rewrite Hw. cbn. reflexivity.
Qed.

Lemma finish_no_fault {P} (before : list (event P)) sfd r_close l :
  snd l <> inr Fault -> snd (finish before sfd r_close l) <> Fault.
Proof.
  destruct l as [t [x|e]]; cbn [finish snd]; [discriminate|].
  intros H ->. now apply H.
Qed.

(** X7. The echo programs never touch memory outside [data[8]] as long as
    every frame the socket delivers has its length within the array:
    whatever the replies, the run then ends or blocks, and is never at
    fault. *)
Theorem echo_sessions_stay_in_bounds
    iface (w : world can_frame) (wb : world BcmDemo.can_msg) :
  every_frame_fits (fun f => f) (w_reads w) ->
  every_frame_fits BcmDemo.frames (w_reads wb) ->
  snd (exec (RawDemo.main iface w)) <> Fault /\
  snd (exec (BcmDemo.main iface wb)) <> Fault.
Proof.
  intros Hf Hfb. split.
  - destruct (established_or_not w) as [(sfd & idx & H)|H].
    + rewrite (raw_main_run iface w sfd idx H).
      now apply finish_no_fault, rounds_no_fault.
    + destruct (raw_main_dies iface w H) as [E _]. now rewrite E.
  - destruct (established_or_not wb) as [(sfd & idx & H)|H].
    + destruct (w_writes wb) as [|w0 writes] eqn:Hw.
      * now rewrite (bcm_main_blocked iface wb sfd idx H Hw).
      * destruct (ret w0) as [[]|e] eqn:E0.
        -- rewrite (bcm_main_run iface wb sfd idx w0 writes H Hw E0).
           now apply finish_no_fault, rounds_no_fault.
        -- now rewrite (bcm_main_refused iface wb sfd idx w0 writes e H Hw E0).
    + destruct (bcm_main_dies iface wb H) as [E _]. now rewrite E.
Qed.

Lemma echo_sessions_stay_in_bounds_witness :
  snd (exec (RawDemo.main "can0" world_echo_once)) <> Fault /\
  snd (exec (BcmDemo.main "can0" bcm_world_write_error)) <> Fault.
Proof.
  apply echo_sessions_stay_in_bounds;
    repeat constructor; unfold fits; cbn; lia.
Defined.

(** The other side of X7: a frame whose length exceeds the array puts the
    raw session at fault. *)
Example raw_run_long_frame :
  snd (exec (RawDemo.main "can0"
         (echo_world 3 7 [ok long_frame] [ok tt] (Done tt)))) = Fault.
Proof. reflexivity. Qed.

(** ** Shutdown on request *)

Section SHUTDOWN.

Variable P : Type.
Variable frame_of : P -> can_frame.
Variable answer : P -> can_frame -> P.
Variable msgid : Z.
Variable sfd : Z.

Local Abbreviation round := (round frame_of answer msgid sfd).
Local Abbreviation rounds := (rounds frame_of answer msgid sfd).

(** How a round depends on the write replies: on the first one at most,
    which it consumes or leaves. *)
Lemma round_writes_tail r a ws ws' :
  exists t run',
    (round r (a :: ws) = (t, run', Again ws) /\
     round r (a :: ws') = (t, run', Again ws') /\
     (signalled a = true -> run' = false)) \/
    (round r (a :: ws) = (t, run', Again (a :: ws)) /\
     round r (a :: ws') = (t, run', Again (a :: ws'))) \/
    (exists nx,
       (nx = Leave \/ exists e, nx = Stop e) /\
       round r (a :: ws) = (t, run', nx) /\
       round r (a :: ws') = (t, run', nx)).
Proof.
  unfold round. destruct r as [s [p|e]]; cbn [ret signalled].
  - destruct (Mem.value (print_can_frame (frame_of p))) as [rx|];
      [|do 2 eexists; right; right; eexists; split;
        [right; eexists; reflexivity | split; reflexivity]].
    destruct (Mem.value (transform msgid (frame_of p))) as [f'|];
      [|do 2 eexists; right; right; eexists; split;
        [right; eexists; reflexivity | split; reflexivity]].
    destruct a as [sa [u|e]]; cbn [ret signalled].
    + destruct (Mem.value (print_can_frame f')) as [tx|].
      * do 2 eexists. left. repeat split.
        intros ->. now rewrite andb_false_r.
      * do 2 eexists. right. right. eexists. split;
          [right; eexists; reflexivity | split; reflexivity].
    + destruct (e =? EINTR).
      * do 2 eexists. left. repeat split.
        intros ->. now rewrite andb_false_r.
      * do 2 eexists. right. right. eexists. split;
          [left; reflexivity | split; reflexivity].
  - destruct (e =? EINTR).
    + do 2 eexists. right. left. split; reflexivity.
    + do 2 eexists. right. right. eexists. split;
        [left; reflexivity | split; reflexivity].
Qed.

Lemma rounds_after_signalled_write reads : forall wpre w wpost run,
  signalled w = true ->
  rounds reads (wpre ++ w :: wpost) run = rounds reads (wpre ++ [w]) run.
Proof.
  induction reads as [|r reads IH]; intros wpre w wpost [|] Hs;
    try reflexivity.
  cbn [rounds]. destruct wpre as [|a wpre]; cbn [app].
  - destruct (round_writes_tail r w wpost [])
      as (t & run' & [(E1 & E2 & Hrun)|[(E1 & E2)|(nx & Hnx & E1 & E2)]]);
      rewrite E1, E2.
    + rewrite (Hrun Hs), !rounds_stopped. reflexivity.
    + pose proof (IH [] w wpost run' Hs) as E. cbn [app] in E.
      now rewrite E.
    + destruct Hnx as [->|[e ->]]; reflexivity.
  - destruct (round_writes_tail r a (wpre ++ w :: wpost) (wpre ++ [w]))
      as (t & run' & [(E1 & E2 & _)|[(E1 & E2)|(nx & Hnx & E1 & E2)]]);
      rewrite E1, E2.
    + now rewrite (IH wpre w wpost run' Hs).
    + pose proof (IH (a :: wpre) w wpost run' Hs) as E. cbn [app] in E.
      now rewrite E.
    + destruct Hnx as [->|[e ->]]; reflexivity.
Qed.

(** A round with the replies it consumes: when it goes back to the loop
    condition with the flag cleared, nothing may follow on the socket. *)
Lemma round_stops_at_signal r writes reads' rest :
  match round r writes with
  | (t, run', Again ws) =>
      stops_at_signal (t ++ rest) (r :: reads') writes
      = if run' then stops_at_signal rest reads' ws else quiet rest
  | (t, _, _) => stops_at_signal t (r :: reads') writes = true
  end.
Proof.
  unfold round, quiet, one_answer. destruct r as [[|] [p|e]];
    cbn [ret signalled negb andb].
  all: try (destruct (e =? EINTR); reflexivity).
  all: destruct (Mem.value (print_can_frame (frame_of p))) as [rx|];
    [|reflexivity].
  all: destruct (Mem.value (transform msgid (frame_of p))) as [f'|];
    [|reflexivity].
  all: destruct writes as [|[[|] [u|e]] ws]; cbn [ret signalled negb andb];
    try reflexivity.
  all: try (destruct (e =? EINTR); cbn; try reflexivity;
            destruct (io_of rest); reflexivity).
  all: destruct (Mem.value (print_can_frame f')) as [tx|]; cbn;
    try reflexivity; destruct (io_of rest); reflexivity.
Qed.

Lemma rounds_stop_at_signal reads : forall writes run,
  stops_at_signal (fst (rounds reads writes run)) reads writes = true.
Proof.
  induction reads as [|r reads IH]; intros writes [|]; try reflexivity.
  cbn [rounds]. pose proof (round_stops_at_signal r writes reads) as H.
  destruct (round r writes) as [[t run'] [ws| |e]]; cbn [after fst].
  - rewrite H. destruct run'; [apply IH|].
    now rewrite rounds_stopped.
  - exact (H []).
  - exact (H []).
Qed.

End SHUTDOWN.

(** X8. Once SIGINT or SIGTERM has been delivered during a read or a
    write, the echo loops consume no reply after that call, but for the
    answer to a message that the interrupted read gave. In the run of the
    loop, each read and write taken with the reply it consumed: after a
    write during which the signal arrived the socket is not used again,
    so no other read is issued; after a read during which it arrived the
    socket is used for the answer at most. The replies scripted beyond
    the signal make no difference to the run. *)
Theorem shutdown_signal_ends_loop
    sfd (pre post : list (reply can_frame))
    (preb postb : list (reply BcmDemo.can_msg))
    (r : reply can_frame) (rb : reply BcmDemo.can_msg)
    (wpre wpost : list (reply unit)) (w : reply unit)
    reads readsb writes run :
  signalled r = true -> signalled rb = true -> signalled w = true ->
  RawDemo.loop sfd (pre ++ r :: post) writes run
  = RawDemo.loop sfd (pre ++ [r]) writes run /\
  BcmDemo.loop sfd (preb ++ rb :: postb) writes run
  = BcmDemo.loop sfd (preb ++ [rb]) writes run /\
  RawDemo.loop sfd reads (wpre ++ w :: wpost) run
  = RawDemo.loop sfd reads (wpre ++ [w]) run /\
  BcmDemo.loop sfd readsb (wpre ++ w :: wpost) run
  = BcmDemo.loop sfd readsb (wpre ++ [w]) run /\
  stops_at_signal (fst (RawDemo.loop sfd reads writes run)) reads writes
  = true /\
  stops_at_signal (fst (BcmDemo.loop sfd readsb writes run)) readsb writes
  = true /\
  stops_at_signal
    (fst (RawDemo.loop sfd reads (wpre ++ w :: wpost) run))
    reads (wpre ++ w :: wpost) = true /\
  stops_at_signal
    (fst (BcmDemo.loop sfd readsb (wpre ++ w :: wpost) run))
    readsb (wpre ++ w :: wpost) = true.
Proof.
  intros Hr Hrb Hw. rewrite !raw_loop_rounds, !bcm_loop_rounds.
  split; [|split; [|split; [|split; [|split; [|split; [|split]]]]]].
  - now apply rounds_after_signal.
  - now apply rounds_after_signal.
  - now apply rounds_after_signalled_write.
  - now apply rounds_after_signalled_write.
  - apply rounds_stop_at_signal.
  - apply rounds_stop_at_signal.
  - apply rounds_stop_at_signal.
  - apply rounds_stop_at_signal.
Qed.

Lemma shutdown_signal_ends_loop_witness :
  RawDemo.loop 3 ([ok sample_frame] ++ mk_reply true (Done sample_frame)
                    :: [ok sample_frame; ok sample_frame])
               [ok tt; ok tt; ok tt; ok tt] true
  = RawDemo.loop 3 ([ok sample_frame] ++ [mk_reply true (Done sample_frame)])
                 [ok tt; ok tt; ok tt; ok tt] true /\
  io_of (fst (RawDemo.loop 3
                ([ok sample_frame] ++ mk_reply true (Done sample_frame)
                   :: [ok sample_frame; ok sample_frame])
                [ok tt; ok tt; ok tt; ok tt] true))
  = [Rd; Wr (echoed RawDemo.MSGID sample_frame);
     Rd; Wr (echoed RawDemo.MSGID sample_frame)] /\
  stops_at_signal
    (fst (RawDemo.loop 3 [ok sample_frame; ok sample_frame; ok sample_frame]
            ([ok tt] ++ mk_reply true (Done tt) :: [ok tt; ok tt]) true))
    [ok sample_frame; ok sample_frame; ok sample_frame]
    ([ok tt] ++ mk_reply true (Done tt) :: [ok tt; ok tt]) = true /\
  io_of (fst (RawDemo.loop 3
                [ok sample_frame; ok sample_frame; ok sample_frame]
                ([ok tt] ++ mk_reply true (Done tt) :: [ok tt; ok tt]) true))
  = [Rd; Wr (echoed RawDemo.MSGID sample_frame);
     Rd; Wr (echoed RawDemo.MSGID sample_frame)].
Proof.
  destruct (shutdown_signal_ends_loop 3 [ok sample_frame]
              [ok sample_frame; ok sample_frame] [] []
              (mk_reply true (Done sample_frame)) interrupted
              [ok tt] [ok tt; ok tt] (mk_reply true (Done tt))
              [ok sample_frame; ok sample_frame; ok sample_frame] []
              [ok tt; ok tt; ok tt; ok tt] true)
    as (E & _ & _ & _ & _ & _ & S & _); try reflexivity.
  split; [exact E|]. split; [reflexivity|]. split; [exact S|reflexivity].
Defined.

(** What [stops_at_signal] rules out: a loop that went on to read after
    the write during which the signal arrived. *)
Example read_after_signalled_write_is_ruled_out :
  stops_at_signal
    [Eread 3 (Done sample_frame);
     Ewrite 3 (echoed RawDemo.MSGID sample_frame) (Done tt);
     Eread 3 (Done sample_frame)]
    [ok sample_frame; ok sample_frame] [mk_reply true (Done tt)] = false.
Proof. reflexivity. Qed.

(** X9. A read interrupted by a signal that does not ask for shutdown
    ([EINTR] with the flag still set) is simply issued again: apart from
    the interrupted reads themselves, the loops run as if those replies
    had never been there, and end the same way. *)
Theorem spurious_reads_are_transparent
    sfd (reads : list (reply can_frame))
    (readsb : list (reply BcmDemo.can_msg)) writes run :
  (without_eintr_reads (fst (RawDemo.loop sfd reads writes run))
   = without_eintr_reads
       (fst (RawDemo.loop sfd (filter (fun r => negb (spurious r)) reads)
                          writes run)) /\
   snd (RawDemo.loop sfd reads writes run)
   = snd (RawDemo.loop sfd (filter (fun r => negb (spurious r)) reads)
                       writes run)) /\
  (without_eintr_reads (fst (BcmDemo.loop sfd readsb writes run))
   = without_eintr_reads
       (fst (BcmDemo.loop sfd (filter (fun r => negb (spurious r)) readsb)
                          writes run)) /\
   snd (BcmDemo.loop sfd readsb writes run)
   = snd (BcmDemo.loop sfd (filter (fun r => negb (spurious r)) readsb)
                       writes run)).
Proof.
  rewrite !raw_loop_rounds, !bcm_loop_rounds.
  split; apply rounds_skip_spurious.
Qed.

(** ** What is written back *)

Lemma answers_closing {P} sfd r_close (l : option P) :
  answers l (closing sfd r_close ++ farewell r_close) = [].
Proof. destruct r_close as [[]|e]; reflexivity. Qed.

Lemma finish_before {P} (before : list (event P)) sfd r_close l :
  fst (finish before sfd r_close l) = before ++ fst (finish [] sfd r_close l).
Proof. destruct l as [t [x|e]]; reflexivity. Qed.

(** The writes of a run from its loop on. *)
Lemma finish_answers {P} (frame_of : P -> can_frame) answer msgid
    sfd r_close reads writes run last :
  Forall (fun x => exists p, fst x = Some p /\
                     snd x = answer p (echoed msgid (frame_of p)) /\
                     fits (frame_of p))
         (answers last
            (fst (finish [] sfd r_close
                    (rounds frame_of answer msgid sfd reads writes run)))).
Proof.
  pose proof (rounds_answers P frame_of answer msgid sfd reads writes run
                last (closing sfd r_close ++ farewell r_close)) as H1.
  pose proof (rounds_answers P frame_of answer msgid sfd reads writes run
                last []) as H2.
  destruct (rounds frame_of answer msgid sfd reads writes run)
    as [t [x|e]]; cbn [finish fst app] in *.
  - apply H1.
    + rewrite answers_closing. constructor.
    + intros l. now rewrite !answers_closing.
  - rewrite <- (app_nil_r t). apply H2; [constructor | reflexivity].
Qed.

(** X10. In an established raw session every frame written is the answer
    to the frame read just before it: the same length, the identifier
    0x0CC, each byte of the payload incremented modulo 256 and the bytes
    after the payload unchanged; nothing is written without a frame read
    for it, and every frame answered has its length within the array. *)
Theorem raw_writes_answer_reads iface (w : world can_frame) sfd ifindex :
  established w sfd ifindex ->
  Forall (fun x => exists f, fst x = Some f /\
                     snd x = echoed RawDemo.MSGID f /\ fits f)
         (answers None (fst (exec (RawDemo.main iface w)))).
Proof.
  intros H. rewrite (raw_main_run iface w sfd ifindex H), finish_before.
  cbn [setup_events app answers].
  apply (finish_answers (fun f => f) (fun _ f => f)).
Qed.

Lemma raw_writes_answer_reads_witness :
  Forall (fun x => exists f, fst x = Some f /\
                     snd x = echoed RawDemo.MSGID f /\ fits f)
         (answers None (fst (exec (RawDemo.main "can0" world_echo_once))))
  /\ answers None (fst (exec (RawDemo.main "can0" world_echo_once)))
     = [(Some sample_frame,
         mk_frame 0x0CC 2 [0x11; 0x21; 0; 0; 0; 0; 0; 0])].
Proof.
  split; [|reflexivity].
  apply (raw_writes_answer_reads "can0" world_echo_once 3 7).
  repeat split.
Defined.

(** X11. In a filtered-echo session with its subscription accepted, the
    first write is the subscription, and every later write answers the
    message read just before it: its frame is that message's frame with the
    identifier 0x0BC and the payload incremented, and its header is the
    header that was read with only the opcode, the identifier and the
    frame count replaced; flags, count and both intervals go back to the
    kernel as they came. *)
Theorem bcm_writes_answer_reads
    iface (w : world BcmDemo.can_msg) sfd ifindex w0 writes :
  established w sfd ifindex ->
  w_writes w = w0 :: writes -> ret w0 = Done tt ->
  exists rest,
    answers None (fst (exec (BcmDemo.main iface w)))
    = (None, BcmDemo.rx_setup_msg) :: rest /\
    Forall (fun x => exists m,
              fst x = Some m /\
              BcmDemo.frames (snd x)
              = echoed BcmDemo.MSGID (BcmDemo.frames m) /\
              bcm.flags (BcmDemo.msg_head (snd x))
              = bcm.flags (BcmDemo.msg_head m) /\
              bcm.count (BcmDemo.msg_head (snd x))
              = bcm.count (BcmDemo.msg_head m) /\
              bcm.ival1 (BcmDemo.msg_head (snd x))
              = bcm.ival1 (BcmDemo.msg_head m) /\
              bcm.ival2 (BcmDemo.msg_head (snd x))
              = bcm.ival2 (BcmDemo.msg_head m))
           rest.
Proof.
  intros H Hw H0.
  rewrite (bcm_main_run iface w sfd ifindex w0 writes H Hw H0), finish_before.
  cbn [setup_events app answers].
  eexists. split; [reflexivity|].
  eapply Forall_impl;
    [|apply (finish_answers BcmDemo.frames bcm_answer BcmDemo.MSGID)].
  intros [l buf] (m & Hl & Hbuf & _). cbn [fst snd] in *. subst l buf.
  exists m. cbn. repeat split.
Qed.

Lemma bcm_writes_answer_reads_witness :
  exists rest,
    answers None (fst (exec (BcmDemo.main "can0" bcm_world_write_error)))
    = (None, BcmDemo.rx_setup_msg) :: rest /\
    Forall (fun x => exists m,
              fst x = Some m /\
              BcmDemo.frames (snd x)
              = echoed BcmDemo.MSGID (BcmDemo.frames m) /\
              bcm.flags (BcmDemo.msg_head (snd x))
              = bcm.flags (BcmDemo.msg_head m) /\
              bcm.count (BcmDemo.msg_head (snd x))
              = bcm.count (BcmDemo.msg_head m) /\
              bcm.ival1 (BcmDemo.msg_head (snd x))
              = bcm.ival1 (BcmDemo.msg_head m) /\
              bcm.ival2 (BcmDemo.msg_head (snd x))
              = bcm.ival2 (BcmDemo.msg_head m))
           rest.
Proof.
  apply (bcm_writes_answer_reads "can0" bcm_world_write_error 4 7
           (ok tt) [mk_reply false (Failed EIO)]);
    repeat split.
Defined.

(** ** A session from its first frame to the farewell *)

Lemma rounds_interrupted {P} (frame_of : P -> can_frame) answer msgid sfd
    (reads : list (reply P)) writes :
  rounds frame_of answer msgid sfd (interrupted :: reads) writes true
  = ([Eread sfd (Failed EINTR)], inl (tt, false)).
Proof.
  cbn [rounds]. unfold round. cbn [interrupted ret signalled negb].
  change (EINTR =? EINTR) with true. cbv iota.
  now rewrite rounds_stopped.
Qed.

(** X12. A raw session that is set up undisturbed, receives [n] frames
    whose lengths are within the array, has each answer accepted, and is
    then interrupted by SIGINT in its next read, echoes the [n] frames in
    order (RX line, write of the answer, TX line, for each) and shuts
    down: signals blocked, socket closed, and the farewell with
    EXIT_SUCCESS if [close] succeeds. Replies after the interruption are
    not consumed. *)
Theorem raw_session_echoes_until_interrupted
    iface sfd ifindex (frames : list can_frame)
    (reads : list (reply can_frame)) (writes : list (reply unit)) r_close :
  Forall fits frames ->
  exec (RawDemo.main iface
          (echo_world sfd ifindex
             (map (fun f => mk_reply false (Done f)) frames
                ++ interrupted :: reads)
             (map (fun _ => mk_reply false (Done tt)) frames ++ writes)
             r_close))
  = (setup_events CAN_RAW iface sfd ifindex
       ++ flat_map (echo_round (fun f => f) (fun _ f => f) RawDemo.MSGID sfd)
                   frames
       ++ [Eread sfd (Failed EINTR)]
       ++ closing sfd r_close ++ farewell r_close,
     Exit (final_status r_close)).
Proof.
  intros Hf.
  rewrite (raw_main_run iface _ sfd ifindex) by (repeat split).
  cbn [echo_world w_reads w_writes w_close].
  change (run0 _) with true.
  rewrite (rounds_echo can_frame (fun f => f) (fun _ f => f) RawDemo.MSGID
             sfd frames _ _ Hf).
  rewrite rounds_interrupted. unfold after, finish. cbn [fst snd].
  now rewrite <- !app_assoc.
Qed.

Lemma raw_session_echoes_until_interrupted_witness :
  exec (RawDemo.main "can0"
          (echo_world 3 7
             (map (fun f => mk_reply false (Done f))
                  [sample_frame; zero_frame]
                ++ interrupted :: [])
             (map (fun _ => mk_reply false (Done tt))
                  [sample_frame; zero_frame] ++ [])
             (Done tt)))
  = (setup_events CAN_RAW "can0" 3 7
       ++ flat_map (echo_round (fun f => f) (fun _ f => f) RawDemo.MSGID 3)
                   [sample_frame; zero_frame]
       ++ [Eread 3 (Failed EINTR)]
       ++ closing 3 (Done tt) ++ farewell (Done tt),
     Exit (final_status (Done tt))).
Proof.
  apply raw_session_echoes_until_interrupted.
  repeat constructor; unfold fits; cbn; lia.
Defined.

(** X13. The same for the filtered-echo session: with the subscription
    accepted, [n] messages delivered with frames that fit, every answer
    accepted and SIGINT in the next read, the run is the subscription,
    the [n] rounds in order, each answer a [TX_SEND] of the incremented
    frame with identifier 0x0BC, and the orderly shutdown. *)
Theorem bcm_session_echoes_until_interrupted
    iface sfd ifindex (msgs : list BcmDemo.can_msg)
    (reads : list (reply BcmDemo.can_msg)) (writes : list (reply unit))
    r_close :
  Forall (fun m => fits (BcmDemo.frames m)) msgs ->
  exec (BcmDemo.main iface
          (echo_world sfd ifindex
             (map (fun m => mk_reply false (Done m)) msgs
                ++ interrupted :: reads)
             (mk_reply false (Done tt)
                :: map (fun _ => mk_reply false (Done tt)) msgs ++ writes)
             r_close))
  = (setup_events CAN_BCM iface sfd ifindex
       ++ [Ewrite sfd BcmDemo.rx_setup_msg (Done tt)]
       ++ flat_map (echo_round BcmDemo.frames bcm_answer BcmDemo.MSGID sfd)
                   msgs
       ++ [Eread sfd (Failed EINTR)]
       ++ closing sfd r_close ++ farewell r_close,
     Exit (final_status r_close)).
Proof.
  intros Hf.
  rewrite (bcm_main_run iface _ sfd ifindex (mk_reply false (Done tt))
             (map (fun _ => mk_reply false (Done tt)) msgs ++ writes))
    by (repeat split).
  cbn [echo_world w_reads w_writes w_close signalled].
  change (run0 _ && negb false) with true.
  rewrite (rounds_echo BcmDemo.can_msg BcmDemo.frames bcm_answer
             BcmDemo.MSGID sfd msgs _ _ Hf).
  rewrite rounds_interrupted. unfold after, finish. cbn [fst snd].
  now rewrite <- !app_assoc.
Qed.

Lemma bcm_session_echoes_until_interrupted_witness :
  exec (BcmDemo.main "can0"
          (echo_world 4 7
             (map (fun m => mk_reply false (Done m))
                  [rx_changed sample_frame]
                ++ interrupted :: [])
             (mk_reply false (Done tt)
                :: map (fun _ => mk_reply false (Done tt))
                       [rx_changed sample_frame] ++ [])
             (Done tt)))
  = (setup_events CAN_BCM "can0" 4 7
       ++ [Ewrite 4 BcmDemo.rx_setup_msg (Done tt)]
       ++ flat_map (echo_round BcmDemo.frames bcm_answer BcmDemo.MSGID 4)
                   [rx_changed sample_frame]
       ++ [Eread 4 (Failed EINTR)]
       ++ closing 4 (Done tt) ++ farewell (Done tt),
     Exit (final_status (Done tt))).
Proof.
  apply bcm_session_echoes_until_interrupted.
  repeat constructor; unfold fits; cbn; lia.
Defined.

(** ** The command line *)

Lemma nth_last {A} (l : list A) (d : A) (i : nat) :
  Z.of_nat (List.length l) - Z.of_nat i = 1 -> nth i l d = last l d.
Proof.
  revert i. induction l as [|x l IH]; intros i H.
  - cbn [List.length] in H. lia.
  - destruct l as [|y l].
    + cbn [List.length] in H. assert (i = O) as -> by lia. reflexivity.
    + destruct i as [|i]; [cbn [List.length] in H; lia|].
      change (nth (S i) (x :: y :: l) d) with (nth i (y :: l) d).
      change (last (x :: y :: l) d) with (last (y :: l) d).
      apply IH. cbn [List.length] in *. lia.
Qed.

Lemma parse_args_accepts {P} progname argv g later run :
  accepted argv g ->
  @parse_args P progname (Z.of_nat (List.length argv)) (g :: later) run
  = (complaint g, inl (nth (g_optind g) (g_argv g) EmptyString, run)).
Proof.
  intros [Ho Hn]. unfold parse_args, complaint. cbn [parse_options].
  unfold getopt_long.
  destruct (g_message g); cbn; rewrite Ho; cbn; rewrite Hn; reflexivity.
Qed.

Lemma parse_args_refuses {P} progname argv g later run :
  ~ accepted argv g ->
  @parse_args P progname (Z.of_nat (List.length argv)) (g :: later) run
  = (fst (refusal progname g), inr (snd (@refusal P progname g))).
Proof.
  intros H. unfold parse_args, refusal, preceded, complaint.
  cbn [parse_options]. unfold getopt_long.
  destruct (g_opt g =? -1) eqn:E1.
  - destruct (Z.of_nat (List.length argv) - Z.of_nat (g_optind g) =? 1)
      eqn:E2.
    + exfalso. apply H. split; now apply Z.eqb_eq.
    + destruct (g_message g); cbn; rewrite E1; cbn; rewrite E2; reflexivity.
  - destruct (g_opt g =? opt_V) eqn:E2;
      [destruct (g_message g); cbn; rewrite E1, E2; reflexivity|].
    destruct (g_opt g =? opt_h) eqn:E3;
      destruct (g_message g); cbn; rewrite E1, E2, E3; reflexivity.
Qed.

Lemma exec_after_parse_args {P} progname argv g later
    (k : string -> Proc P Z) :
  (accepted argv g ->
   exec (pbind (parse_args progname (Z.of_nat (List.length argv))
                           (g :: later)) k)
   = preceded (complaint g)
       (exec (k (nth (g_optind g) (g_argv g) EmptyString)))) /\
  (~ accepted argv g ->
   exec (pbind (parse_args progname (Z.of_nat (List.length argv))
                           (g :: later)) k)
   = refusal progname g).
Proof.
  split; intros H; unfold exec.
  - rewrite (pbind_run _ _ _ _ _ _
               (parse_args_accepts progname argv g later true H)).
    unfold preceded.
    now destruct (k (nth (g_optind g) (g_argv g) EmptyString) true)
      as [t [[status run']|e]].
  - rewrite (pbind_halt _ _ _ _ _
               (parse_args_refuses progname argv g later true H)).
    now destruct (refusal progname g).
Qed.

(** X14. [parse_args] calls [getopt_long] once: what later calls would
    give makes no difference. Each of the three programs goes on to its
    session only when that call met no option and left exactly one
    argument; the interface is then the argument at [optind] in the
    argument vector as [getopt_long] left it, which is its last element
    (the call may have moved the interface there). In every other case
    the run consists of text alone, with no system call on a socket: what
    [getopt_long] itself wrote on standard error, then the version or the
    help with EXIT_SUCCESS for -V and -h, the help with EXIT_FAILURE for
    any other option, the diagnostic and the help with EXIT_FAILURE for a
    wrong number of arguments. *)
Theorem command_line_gates_the_session
    progname argv g later (w : world can_frame)
    (wb : world BcmDemo.can_msg) (wc : CyclicDemo.world) :
  (accepted argv g ->
   exec (raw_demo progname argv (g :: later) w)
   = preceded (complaint g)
       (exec (RawDemo.main (nth (g_optind g) (g_argv g) EmptyString) w)) /\
   exec (bcm_demo progname argv (g :: later) wb)
   = preceded (complaint g)
       (exec (BcmDemo.main (nth (g_optind g) (g_argv g) EmptyString) wb)) /\
   exec (cyclic_demo progname argv (g :: later) wc)
   = preceded (complaint g)
       (exec (CyclicDemo.main (nth (g_optind g) (g_argv g) EmptyString)
                              wc)) /\
   (List.length (g_argv g) = List.length argv ->
    nth (g_optind g) (g_argv g) EmptyString
    = last (g_argv g) EmptyString)) /\
  (~ accepted argv g ->
   exec (raw_demo progname argv (g :: later) w) = refusal progname g /\
   exec (bcm_demo progname argv (g :: later) wb) = refusal progname g /\
   exec (cyclic_demo progname argv (g :: later) wc) = refusal progname g /\
   forallb is_output (fst (@refusal can_frame progname g)) = true /\
   (snd (@refusal can_frame progname g) = Exit EXIT_SUCCESS <->
    g_opt g = opt_V \/ g_opt g = opt_h)).
Proof.
  split; intros H.
  - split; [now apply exec_after_parse_args|].
    split; [now apply exec_after_parse_args|].
    split; [now apply exec_after_parse_args|].
    intros Hlen. apply nth_last. rewrite Hlen. exact (proj2 H).
  - split; [now apply exec_after_parse_args|].
    split; [now apply exec_after_parse_args|].
    split; [now apply exec_after_parse_args|].
    unfold refusal, preceded, complaint. cbn [fst snd].
    rewrite forallb_app.
    assert (Hc : forallb (@is_output can_frame)
                   match g_message g with
                   | Some text => [Estderr text]
                   | None => []
                   end = true) by (destruct (g_message g); reflexivity).
    rewrite Hc. cbn [andb].
    destruct (g_opt g =? -1) eqn:E1.
    + apply Z.eqb_eq in E1. rewrite E1. split; [reflexivity|].
      split; [discriminate|]. intros [E|E]; discriminate E.
    + destruct (g_opt g =? opt_V) eqn:E2.
      * apply Z.eqb_eq in E2. split; [reflexivity|]. split; auto.
      * destruct (g_opt g =? opt_h) eqn:E3.
        -- apply Z.eqb_eq in E3. split; [reflexivity|]. split; auto.
        -- apply Z.eqb_neq in E2, E3. split; [reflexivity|].
           split; [discriminate|]. intros [E|E]; contradiction.
Qed.

Lemma command_line_gates_the_session_witness :
  exec (raw_demo "socketcan-raw-demo" (fst cli_reordered)
                 [snd cli_reordered] world_echo_once)
  = exec (RawDemo.main "can0" world_echo_once) /\
  exec (raw_demo "socketcan-raw-demo" (fst cli_unknown_option)
                 [snd cli_unknown_option] world_echo_once)
  = ([Estderr ("socketcan-raw-demo: invalid option -- 'x'" ++ nl)%string;
      Estdout (help_text "socketcan-raw-demo")], Exit EXIT_FAILURE) /\
  exec (raw_demo "socketcan-raw-demo" (fst cli_version)
                 [snd cli_version] world_echo_once)
  = ([Estdout (VERSION ++ nl)%string], Exit EXIT_SUCCESS) /\
  exec (raw_demo "socketcan-raw-demo" (fst cli_no_argument)
                 [snd cli_no_argument] world_echo_once)
  = ([Eerror "exactly one CAN interface argument expected" 0;
      Estdout (help_text "socketcan-raw-demo")], Exit EXIT_FAILURE).
Proof.
  split; [|split; [|split]].
  - apply (command_line_gates_the_session "socketcan-raw-demo"
             (fst cli_reordered) (snd cli_reordered) [] world_echo_once
             bcm_world_write_error
             (CyclicDemo.mk_world (ok 3) (ok 7) (ok tt) (ok tt) true
                                  (Done tt))).
    split; reflexivity.
  - apply (command_line_gates_the_session "socketcan-raw-demo"
             (fst cli_unknown_option) (snd cli_unknown_option) []
             world_echo_once bcm_world_write_error
             (CyclicDemo.mk_world (ok 3) (ok 7) (ok tt) (ok tt) true
                                  (Done tt))).
    intros [E _]. discriminate E.
  - apply (command_line_gates_the_session "socketcan-raw-demo"
             (fst cli_version) (snd cli_version) [] world_echo_once
             bcm_world_write_error
             (CyclicDemo.mk_world (ok 3) (ok 7) (ok tt) (ok tt) true
                                  (Done tt))).
    intros [E _]. discriminate E.
  - apply (command_line_gates_the_session "socketcan-raw-demo"
             (fst cli_no_argument) (snd cli_no_argument) [] world_echo_once
             bcm_world_write_error
             (CyclicDemo.mk_world (ok 3) (ok 7) (ok tt) (ok tt) true
                                  (Done tt))).
    intros [_ E]. discriminate E.
Defined.

(** ** The subscription and the sends of the broadcast-manager demo *)

Section ANSWERED.

Variable P : Type.
Variable frame_of : P -> can_frame.
Variable answer : P -> can_frame -> P.
Variable msgid : Z.
Variable sfd : Z.

Local Abbreviation round := (round frame_of answer msgid sfd).
Local Abbreviation rounds := (rounds frame_of answer msgid sfd).

(** A round that does not stop the process leaves no read unanswered. *)
Lemma round_answered r writes rest :
  match ret r with Done p => fits (frame_of p) | Failed _ => True end ->
  (forall how, snd (round r writes) <> Stop how) ->
  unanswered None (fst (fst (round r writes)) ++ rest)
  = unanswered None rest.
Proof.
  destruct r as [s [p|e]]; cbn [ret]; intros Hf Hgo.
  - rewrite (round_of_fitting_frame P frame_of answer msgid sfd s p writes Hf)
      in *.
    cbv zeta in *. destruct writes as [|[s' [u|e]] writes'];
      cbn [ret signalled] in *.
    + exfalso. now apply (Hgo Hang).
    + reflexivity.
    + destruct (e =? EINTR); reflexivity.
  - unfold round. cbn [ret]. destruct (e =? EINTR); reflexivity.
Qed.

Lemma rounds_answered reads : forall writes run x rest,
  every_frame_fits frame_of reads ->
  snd (rounds reads writes run) = inl x ->
  unanswered None (fst (rounds reads writes run) ++ rest)
  = unanswered None rest.
Proof.
  induction reads as [|r reads IH]; intros writes [|] x rest Hf Hx;
    cbn [rounds fst snd app] in *; try discriminate; try reflexivity.
  inversion Hf as [|r' reads' Hr Hrest]; subst.
  pose proof (round_answered r writes) as Ha.
  destruct (round r writes) as [[t run'] [ws| |e]];
    cbn [after fst snd] in *; try discriminate.
  - rewrite <- app_assoc, Ha; [|exact Hr|discriminate].
    now apply (IH ws run' x).
  - apply Ha; [exact Hr|discriminate].
Qed.

Lemma io_of_echo_rounds (msgs : list P) :
  io_of (flat_map (echo_round frame_of answer msgid sfd) msgs)
  = echo_traffic frame_of answer msgid msgs.
Proof.
  induction msgs as [|m msgs IH]; [reflexivity|].
  cbn [flat_map echo_traffic]. rewrite io_of_app, IH. reflexivity.
Qed.

End ANSWERED.

(** C9. In a filtered-echo session whose socket is connected, the first
    thing put on the socket, before any read, is the write of one
    [RX_SETUP] command for the identifier 0x123; it is the only
    [RX_SETUP] of the run, and every write after it is a [TX_SEND] with a
    frame count of 1 and a zero identifier in the header, around a frame
    that carries the transmit identifier [MSGID]. The loop does issue
    these commands: in a run that ends, with frames that fit, no message
    is read without a write before the next read; and when the
    subscription is accepted and the session undisturbed, [n] messages
    delivered and answered in turn give, right after the subscription,
    the traffic read, [TX_SEND] of the answer, [n] times in order. *)
Theorem subscription_then_sends
    iface (w : world BcmDemo.can_msg) sfd ifindex w0 writes :
  established w sfd ifindex ->
  w_writes w = w0 :: writes ->
  exists rest,
    io_of (fst (exec (BcmDemo.main iface w))) = Wr BcmDemo.rx_setup_msg :: rest /\
    bcm.opcode (BcmDemo.msg_head BcmDemo.rx_setup_msg) = bcm.RX_SETUP /\
    bcm.can_id (BcmDemo.msg_head BcmDemo.rx_setup_msg) = 0x123 /\
    Forall (tx_send BcmDemo.MSGID) rest /\
    rx_setups (io_of (fst (exec (BcmDemo.main iface w)))) = 1%nat /\
    (every_frame_fits BcmDemo.frames (w_reads w) ->
     terminated (exec (BcmDemo.main iface w)) ->
     unanswered None (fst (exec (BcmDemo.main iface w))) = []) /\
    (forall msgs reads' writes',
       ret w0 = Done tt ->
       run0 w && negb (signalled w0) = true ->
       Forall (fun m => fits (BcmDemo.frames m)) msgs ->
       w_reads w = map (fun m => mk_reply false (Done m)) msgs ++ reads' ->
       writes = map (fun _ => mk_reply false (Done tt)) msgs ++ writes' ->
       exists tail,
         rest = echo_traffic BcmDemo.frames bcm_answer BcmDemo.MSGID msgs
                ++ tail).
Proof.
  intros H Hw. destruct (ret w0) as [[]|e] eqn:E0.
  - rewrite (bcm_main_run iface w sfd ifindex w0 writes H Hw E0).
    rewrite io_of_finish, io_of_app. cbn [setup_events io_of app].
    eexists. split; [reflexivity|].
    assert (Hsend : Forall (tx_send BcmDemo.MSGID)
              (io_of (fst (rounds BcmDemo.frames bcm_answer BcmDemo.MSGID sfd
                             (w_reads w) writes
                             (run0 w && negb (signalled w0)))))).
    { eapply Forall_impl; [|apply rounds_io].
      intros [|m]; [trivial|]. intros (p & frame & -> & Hf).
      cbn. repeat split. exact (transform_can_id _ _ _ Hf). }
    split; [reflexivity|]. split; [reflexivity|]. split; [exact Hsend|].
    split; [|split].
    + cbn [rx_setups BcmDemo.rx_setup_msg BcmDemo.msg_head]. cbn [Z.eqb].
      now rewrite (tx_send_no_rx_setup _ _ Hsend).
    + intros Hf [status Hend].
      pose proof (rounds_answered BcmDemo.can_msg BcmDemo.frames bcm_answer
                    BcmDemo.MSGID sfd (w_reads w) writes
                    (run0 w && negb (signalled w0))) as Ha.
      destruct (rounds BcmDemo.frames bcm_answer BcmDemo.MSGID sfd
                  (w_reads w) writes (run0 w && negb (signalled w0)))
        as [t [x|how]] eqn:E; cbn [finish fst snd] in *.
      * cbn [setup_events app unanswered].
        rewrite (Ha x _ Hf eq_refl).
        now destruct (w_close w) as [[]|ec].
      * apply rounds_ending in E. destruct E; subst how; discriminate.
    + intros msgs reads' writes' _ Hrun Hfit Hreads Hwrites.
      rewrite Hreads, Hwrites, Hrun.
      rewrite (rounds_echo BcmDemo.can_msg BcmDemo.frames bcm_answer
                 BcmDemo.MSGID sfd msgs reads' writes' Hfit).
      unfold after. cbn [fst]. rewrite io_of_app, io_of_echo_rounds.
      eexists. reflexivity.
  - rewrite (bcm_main_refused iface w sfd ifindex w0 writes e H Hw E0).
    exists []. repeat split; try constructor.
    intros msgs reads' writes' Hd. discriminate Hd.
Qed.

Lemma subscription_then_sends_witness :
  exists tail,
    io_of (fst (exec (BcmDemo.main "can0"
             (echo_world 4 7
                [ok (rx_changed sample_frame); interrupted]
                [ok tt; ok tt] (Done tt)))))
    = Wr BcmDemo.rx_setup_msg
        :: Rd
        :: Wr (bcm_answer (rx_changed sample_frame)
                 (echoed BcmDemo.MSGID sample_frame))
        :: tail /\
    unanswered None
      (fst (exec (BcmDemo.main "can0"
              (echo_world 4 7
                 [ok (rx_changed sample_frame); interrupted]
                 [ok tt; ok tt] (Done tt))))) = [].
Proof.
  destruct (subscription_then_sends "can0"
              (echo_world 4 7
                 [ok (rx_changed sample_frame); interrupted]
                 [ok tt; ok tt] (Done tt))
              4 7 (ok tt) [ok tt])
    as (rest & E & _ & _ & _ & _ & Hans & Hn);
    [repeat split | reflexivity |].
  destruct (Hn [rx_changed sample_frame] [interrupted] [])
    as [tail ->]; try reflexivity.
  { repeat constructor; unfold fits; cbn; lia. }
  exists tail. split; [exact E|].
  apply Hans.
  - repeat constructor; unfold fits; cbn; lia.
  - exists EXIT_SUCCESS. reflexivity.
Defined.
